(** * Bady-cry: the recording / analysis cycle of [src/App.tsx]

    The [App] component is embedded as a transition system.  Every handler
    of the component is a function on [State]; the JavaScript event loop is
    the function [step], one event for every piece of code that runs to
    completion: a user action, the part of an asynchronous body between two
    [await]s, a queued recorder task, a timer callback.

    - JavaScript strings are [string]s holding the UTF-8 bytes of the text.
    - JavaScript numbers holding a confidence are binary64 [float]s; time
      values are integers, in milliseconds.
    - Every call of [startRecording] is a [Cycle]: the values its closure
      captured ([recordMode], [subject], [apiKey] of the render in which the
      button was clicked), the browser objects it created (stream, recorder,
      frame array, interval) and the point its asynchronous body has reached.
      A [useRef] cell that holds one of these objects holds the index of the
      cycle.
    - The browser: [getUserMedia] resolves or rejects; the constructor and
      [start] of MediaRecorder succeed; [stop] on an inactive recorder does
      nothing; a timer runs at the time it is due.
    - [./types], [./services/geminiService] and [./constants] are not among
      the sources: the two result types are taken from the specification and
      the two service functions are only recorded as requests, their answers
      being events. *)

From Stdlib Require Import ZArith String Ascii Floats DecimalString DecimalPos DecimalZ Lia.
From stdpp Require Import base option list.

Set Warnings "-inexact-float".

Local Open Scope string_scope.
Local Open Scope Z_scope.

(** ** JavaScript strings *)

Module Js.

(** [s.startsWith(p)]. *)
Fixpoint startsWith (p s : string) : bool :=
  match p, s with
  | EmptyString, _ => true
  | String a p', String b s' => if Ascii.eqb a b then startsWith p' s' else false
  | String _ _, EmptyString => false
  end.

(** [s.includes(needle)]: the needle occurs at some offset of [s]. *)
Fixpoint includes (needle s : string) : bool :=
  startsWith needle s ||
  match s with
  | EmptyString => false
  | String _ s' => includes needle s'
  end.

(** Truthiness of a string: only the empty string is falsy. *)
Definition truthy (s : string) : bool :=
  match s with EmptyString => false | String _ _ => true end.

(** White space and line terminators of ECMAScript, as UTF-8 sequences:
    one byte (TAB, LF, VT, FF, CR, SP), two bytes (U+00A0) and three bytes
    (U+1680, U+2000..U+200A, U+2028, U+2029, U+202F, U+205F, U+3000,
    U+FEFF). *)
Definition ws1 (a : ascii) : bool :=
  let n := nat_of_ascii a in
  ((9 <=? n)%nat && (n <=? 13)%nat) || (n =? 32)%nat.

Definition ws2 (a b : ascii) : bool :=
  (nat_of_ascii a =? 194)%nat && (nat_of_ascii b =? 160)%nat.

Definition ws3 (a b c : ascii) : bool :=
  let x := nat_of_ascii a in
  let y := nat_of_ascii b in
  let z := nat_of_ascii c in
  ((x =? 225) && (y =? 154) && (z =? 128))%nat
  || ((x =? 226) && (y =? 128)
      && (((128 <=? z) && (z <=? 138)) || (z =? 168) || (z =? 169) || (z =? 175)))%nat
  || ((x =? 226) && (y =? 129) && (z =? 159))%nat
  || ((x =? 227) && (y =? 128) && (z =? 128))%nat
  || ((x =? 239) && (y =? 187) && (z =? 191))%nat.

(** [s.trimStart()]. *)
Fixpoint trimStart (s : string) : string :=
  match s with
  | EmptyString => s
  | String a s1 =>
      if ws1 a then trimStart s1 else
      match s1 with
      | EmptyString => s
      | String b s2 =>
          if ws2 a b then trimStart s2 else
          match s2 with
          | EmptyString => s
          | String c s3 => if ws3 a b c then trimStart s3 else s
          end
      end
  end.

Fixpoint rev (s : string) : string :=
  match s with
  | EmptyString => EmptyString
  | String a s' => rev s' ++ String a EmptyString
  end.

(** The same scan on the reversed text: the bytes of a white-space
    character arrive last byte first. *)
Fixpoint trimStart_rev (s : string) : string :=
  match s with
  | EmptyString => s
  | String a s1 =>
      if ws1 a then trimStart_rev s1 else
      match s1 with
      | EmptyString => s
      | String b s2 =>
          if ws2 b a then trimStart_rev s2 else
          match s2 with
          | EmptyString => s
          | String c s3 => if ws3 c b a then trimStart_rev s3 else s
          end
      end
  end.

(** [s.trimEnd()] and [s.trim()]. *)
Definition trimEnd (s : string) : string := rev (trimStart_rev (rev s)).
Definition trim (s : string) : string := trimEnd (trimStart s).

(** [n.toString()] for an integral number below 1e21: plain decimal
    digits, with a minus sign for a negative number. *)
Definition toString (n : Z) : string := NilZero.string_of_int (Z.to_int n).

(** [s.padStart(width, "0")], as [toISOString] pads each field. *)
Fixpoint zeros (n : nat) : string :=
  match n with
  | O => EmptyString
  | S n' => String "0" (zeros n')
  end.

Definition pad (width : nat) (s : string) : string :=
  zeros (width - String.length s) ++ s.

(** [new Date(t).toISOString()]: the proleptic Gregorian calendar date
    and the UTC time of day of the time value [t] (milliseconds since
    the epoch), as [YYYY-MM-DDTHH:mm:ss.sssZ]; a year outside 0..9999 is
    written with a sign and six digits. *)
Definition civil_from_days (days : Z) : Z * Z * Z :=
  let z := days + 719468 in
  let era := z / 146097 in
  let doe := z - era * 146097 in
  let yoe := (doe - doe / 1460 + doe / 36524 - doe / 146096) / 365 in
  let doy := doe - (365 * yoe + yoe / 4 - yoe / 100) in
  let mp := (5 * doy + 2) / 153 in
  let d := doy - (153 * mp + 2) / 5 + 1 in
  let m := if mp <? 10 then mp + 3 else mp - 9 in
  let y := yoe + era * 400 + (if m <=? 2 then 1 else 0) in
  (y, m, d).

Definition year_string (y : Z) : string :=
  if (0 <=? y) && (y <=? 9999) then pad 4 (toString y)
  else if y <? 0 then "-" ++ pad 6 (toString (- y))
  else "+" ++ pad 6 (toString y).

Definition toISOString (t : Z) : string :=
  let days := t / 86400000 in
  let ms := t mod 86400000 in
  let '(y, m, d) := civil_from_days days in
  year_string y ++ "-" ++ pad 2 (toString m) ++ "-" ++ pad 2 (toString d)
  ++ "T" ++ pad 2 (toString (ms / 3600000))
  ++ ":" ++ pad 2 (toString (ms / 60000 mod 60))
  ++ ":" ++ pad 2 (toString (ms / 1000 mod 60))
  ++ "." ++ pad 3 (toString (ms mod 1000)) ++ "Z".

End Js.

(** ** Data model *)

Inductive Subject := Baby | Dog | Cat.
Inductive Status := idle | recording | processing | result.
Inductive RecordMode := audio | video.

(** Modelled from the spec: [./types] is not part of the sources.  A
    TranslationResult is a classification label, a confidence, an advice
    text and an optional behaviour description; the field names are the
    ones [App.tsx] reads. *)
Module TranslationResult.
Record t := mk {
  cryType : string;
  confidence : float;
  suggestion : string;
  behavior : option string;
}.
End TranslationResult.

(** Modelled from the spec: a CryRecord is a TranslationResult plus an
    identifier, a timestamp and a subject, which is what the object literals
    of lines 226-231 and 288-293 build. *)
Module CryRecord.
Record t := mk {
  id : string;
  timestamp : string;
  subject : Subject;
  cryType : string;
  confidence : float;
  suggestion : string;
  behavior : option string;
}.
End CryRecord.

(** What a rejected promise carries: an [Error] with its message, or any
    other value ([err instanceof Error] is false). *)
Inductive Thrown := ErrorObject (message : string) | NotAnError.

Inductive Outcome := Fulfilled (res : TranslationResult.t) | Rejected (err : Thrown).

(** The requests handed to [./services/geminiService], which is not part of
    the sources: only the order and the arguments of the calls are kept. *)
Inductive ServiceCall :=
| translateAudio (audioBlob : string) (subject : Subject) (apiKey : string)
| analyzeVideoFrames (frames : list string) (subject : Subject) (apiKey : string).

(** A MediaRecorder: none yet, recording, stopped with its [dataavailable]
    and [stop] events still queued, stopped with the events delivered. *)
Inductive RecorderState := no_recorder | rec_recording | rec_stopping | rec_inactive.

(** Where one call of [startRecording] stands. *)
Inductive Pc :=
| AtGetUserMedia                (* line 213: awaiting getUserMedia *)
| AtOnstop                      (* line 240: audio, waiting for the stop event *)
| AtTimeout (due : Z)           (* line 267: video, budget timer scheduled *)
| AtTranslateAudio              (* line 225: onstop awaiting translateAudio *)
| AtAnalyzeVideoFrames          (* line 274: awaiting analyzeVideoFrames *)
| AtTranslateAudioV (videoResult : TranslationResult.t)   (* line 278 *)
| Returned.

(** One call of [startRecording]: the state its closure captured at the
    click, and the objects it created.  [c_stream]: the tracks of its
    MediaStream are live.  [c_interval]: the next due time of its
    frame-sampling interval, while that interval is scheduled. *)
Record Cycle := {
  c_recordMode : RecordMode;
  c_subject : Subject;
  c_apiKey : string;
  c_pc : Pc;
  c_stream : bool;
  c_recorder : RecorderState;
  c_frames : list string;
  c_interval : option Z;
}.

(** Field updates of a cycle. *)

Definition set_c_pc (v : Pc) (c : Cycle) : Cycle :=
  {| c_recordMode := c_recordMode c; c_subject := c_subject c; c_apiKey := c_apiKey c;
     c_pc := v; c_stream := c_stream c; c_recorder := c_recorder c;
     c_frames := c_frames c; c_interval := c_interval c |}.

Definition set_c_stream (v : bool) (c : Cycle) : Cycle :=
  {| c_recordMode := c_recordMode c; c_subject := c_subject c; c_apiKey := c_apiKey c;
     c_pc := c_pc c; c_stream := v; c_recorder := c_recorder c; c_frames := c_frames c;
     c_interval := c_interval c |}.

Definition set_c_recorder (v : RecorderState) (c : Cycle) : Cycle :=
  {| c_recordMode := c_recordMode c; c_subject := c_subject c; c_apiKey := c_apiKey c;
     c_pc := c_pc c; c_stream := c_stream c; c_recorder := v; c_frames := c_frames c;
     c_interval := c_interval c |}.

Definition set_c_frames (v : list string) (c : Cycle) : Cycle :=
  {| c_recordMode := c_recordMode c; c_subject := c_subject c; c_apiKey := c_apiKey c;
     c_pc := c_pc c; c_stream := c_stream c; c_recorder := c_recorder c; c_frames := v;
     c_interval := c_interval c |}.

Definition set_c_interval (v : option Z) (c : Cycle) : Cycle :=
  {| c_recordMode := c_recordMode c; c_subject := c_subject c; c_apiKey := c_apiKey c;
     c_pc := c_pc c; c_stream := c_stream c; c_recorder := c_recorder c;
     c_frames := c_frames c; c_interval := v |}.

(** The component: its [useState] cells, its [useRef] cells (a reference to
    an object created by a cycle is the index of that cycle), and the part
    of the browser it talks to: the [geminiApiKey] entry of localStorage,
    the cycles, the service requests issued so far, the clock of the event
    loop in milliseconds. *)
Record State := {
  subject : Subject;
  status : Status;
  recordMode : RecordMode;
  latestResult : option CryRecord.t;
  history : list CryRecord.t;
  error : option string;
  apiKey : string;
  isApiKeyModalOpen : bool;
  mediaRecorderRef : option nat;
  audioChunksRef : list string;
  streamRef : option nat;
  frameIntervalRef : option nat;
  localStorage : option string;
  cycles : list Cycle;
  calls : list ServiceCall;
  now : Z;
}.

Definition setSubject (v : Subject) (st : State) : State :=
  {| subject := v; status := status st; recordMode := recordMode st;
     latestResult := latestResult st; history := history st; error := error st;
     apiKey := apiKey st; isApiKeyModalOpen := isApiKeyModalOpen st;
     mediaRecorderRef := mediaRecorderRef st; audioChunksRef := audioChunksRef st;
     streamRef := streamRef st; frameIntervalRef := frameIntervalRef st;
     localStorage := localStorage st; cycles := cycles st; calls := calls st;
     now := now st |}.

Definition setStatus (v : Status) (st : State) : State :=
  {| subject := subject st; status := v; recordMode := recordMode st;
     latestResult := latestResult st; history := history st; error := error st;
     apiKey := apiKey st; isApiKeyModalOpen := isApiKeyModalOpen st;
     mediaRecorderRef := mediaRecorderRef st; audioChunksRef := audioChunksRef st;
     streamRef := streamRef st; frameIntervalRef := frameIntervalRef st;
     localStorage := localStorage st; cycles := cycles st; calls := calls st;
     now := now st |}.

Definition setRecordMode (v : RecordMode) (st : State) : State :=
  {| subject := subject st; status := status st; recordMode := v;
     latestResult := latestResult st; history := history st; error := error st;
     apiKey := apiKey st; isApiKeyModalOpen := isApiKeyModalOpen st;
     mediaRecorderRef := mediaRecorderRef st; audioChunksRef := audioChunksRef st;
     streamRef := streamRef st; frameIntervalRef := frameIntervalRef st;
     localStorage := localStorage st; cycles := cycles st; calls := calls st;
     now := now st |}.

Definition setLatestResult (v : option CryRecord.t) (st : State) : State :=
  {| subject := subject st; status := status st; recordMode := recordMode st;
     latestResult := v; history := history st; error := error st; apiKey := apiKey st;
     isApiKeyModalOpen := isApiKeyModalOpen st;
     mediaRecorderRef := mediaRecorderRef st; audioChunksRef := audioChunksRef st;
     streamRef := streamRef st; frameIntervalRef := frameIntervalRef st;
     localStorage := localStorage st; cycles := cycles st; calls := calls st;
     now := now st |}.

Definition setError (v : option string) (st : State) : State :=
  {| subject := subject st; status := status st; recordMode := recordMode st;
     latestResult := latestResult st; history := history st; error := v;
     apiKey := apiKey st; isApiKeyModalOpen := isApiKeyModalOpen st;
     mediaRecorderRef := mediaRecorderRef st; audioChunksRef := audioChunksRef st;
     streamRef := streamRef st; frameIntervalRef := frameIntervalRef st;
     localStorage := localStorage st; cycles := cycles st; calls := calls st;
     now := now st |}.

Definition setApiKey (v : string) (st : State) : State :=
  {| subject := subject st; status := status st; recordMode := recordMode st;
     latestResult := latestResult st; history := history st; error := error st;
     apiKey := v; isApiKeyModalOpen := isApiKeyModalOpen st;
     mediaRecorderRef := mediaRecorderRef st; audioChunksRef := audioChunksRef st;
     streamRef := streamRef st; frameIntervalRef := frameIntervalRef st;
     localStorage := localStorage st; cycles := cycles st; calls := calls st;
     now := now st |}.

Definition setIsApiKeyModalOpen (v : bool) (st : State) : State :=
  {| subject := subject st; status := status st; recordMode := recordMode st;
     latestResult := latestResult st; history := history st; error := error st;
     apiKey := apiKey st; isApiKeyModalOpen := v;
     mediaRecorderRef := mediaRecorderRef st; audioChunksRef := audioChunksRef st;
     streamRef := streamRef st; frameIntervalRef := frameIntervalRef st;
     localStorage := localStorage st; cycles := cycles st; calls := calls st;
     now := now st |}.

Definition set_mediaRecorderRef (v : option nat) (st : State) : State :=
  {| subject := subject st; status := status st; recordMode := recordMode st;
     latestResult := latestResult st; history := history st; error := error st;
     apiKey := apiKey st; isApiKeyModalOpen := isApiKeyModalOpen st;
     mediaRecorderRef := v; audioChunksRef := audioChunksRef st;
     streamRef := streamRef st; frameIntervalRef := frameIntervalRef st;
     localStorage := localStorage st; cycles := cycles st; calls := calls st;
     now := now st |}.

Definition set_audioChunksRef (v : list string) (st : State) : State :=
  {| subject := subject st; status := status st; recordMode := recordMode st;
     latestResult := latestResult st; history := history st; error := error st;
     apiKey := apiKey st; isApiKeyModalOpen := isApiKeyModalOpen st;
     mediaRecorderRef := mediaRecorderRef st; audioChunksRef := v;
     streamRef := streamRef st; frameIntervalRef := frameIntervalRef st;
     localStorage := localStorage st; cycles := cycles st; calls := calls st;
     now := now st |}.

Definition set_streamRef (v : option nat) (st : State) : State :=
  {| subject := subject st; status := status st; recordMode := recordMode st;
     latestResult := latestResult st; history := history st; error := error st;
     apiKey := apiKey st; isApiKeyModalOpen := isApiKeyModalOpen st;
     mediaRecorderRef := mediaRecorderRef st; audioChunksRef := audioChunksRef st;
     streamRef := v; frameIntervalRef := frameIntervalRef st;
     localStorage := localStorage st; cycles := cycles st; calls := calls st;
     now := now st |}.

Definition set_frameIntervalRef (v : option nat) (st : State) : State :=
  {| subject := subject st; status := status st; recordMode := recordMode st;
     latestResult := latestResult st; history := history st; error := error st;
     apiKey := apiKey st; isApiKeyModalOpen := isApiKeyModalOpen st;
     mediaRecorderRef := mediaRecorderRef st; audioChunksRef := audioChunksRef st;
     streamRef := streamRef st; frameIntervalRef := v; localStorage := localStorage st;
     cycles := cycles st; calls := calls st; now := now st |}.

Definition set_localStorage (v : option string) (st : State) : State :=
  {| subject := subject st; status := status st; recordMode := recordMode st;
     latestResult := latestResult st; history := history st; error := error st;
     apiKey := apiKey st; isApiKeyModalOpen := isApiKeyModalOpen st;
     mediaRecorderRef := mediaRecorderRef st; audioChunksRef := audioChunksRef st;
     streamRef := streamRef st; frameIntervalRef := frameIntervalRef st;
     localStorage := v; cycles := cycles st; calls := calls st; now := now st |}.

Definition set_cycles (v : list Cycle) (st : State) : State :=
  {| subject := subject st; status := status st; recordMode := recordMode st;
     latestResult := latestResult st; history := history st; error := error st;
     apiKey := apiKey st; isApiKeyModalOpen := isApiKeyModalOpen st;
     mediaRecorderRef := mediaRecorderRef st; audioChunksRef := audioChunksRef st;
     streamRef := streamRef st; frameIntervalRef := frameIntervalRef st;
     localStorage := localStorage st; cycles := v; calls := calls st; now := now st |}.

Definition set_calls (v : list ServiceCall) (st : State) : State :=
  {| subject := subject st; status := status st; recordMode := recordMode st;
     latestResult := latestResult st; history := history st; error := error st;
     apiKey := apiKey st; isApiKeyModalOpen := isApiKeyModalOpen st;
     mediaRecorderRef := mediaRecorderRef st; audioChunksRef := audioChunksRef st;
     streamRef := streamRef st; frameIntervalRef := frameIntervalRef st;
     localStorage := localStorage st; cycles := cycles st; calls := v; now := now st |}.

Definition set_now (v : Z) (st : State) : State :=
  {| subject := subject st; status := status st; recordMode := recordMode st;
     latestResult := latestResult st; history := history st; error := error st;
     apiKey := apiKey st; isApiKeyModalOpen := isApiKeyModalOpen st;
     mediaRecorderRef := mediaRecorderRef st; audioChunksRef := audioChunksRef st;
     streamRef := streamRef st; frameIntervalRef := frameIntervalRef st;
     localStorage := localStorage st; cycles := cycles st; calls := calls st;
     now := v |}.

(** [setHistory(f)] with an updater function. *)
Definition setHistory (f : list CryRecord.t -> list CryRecord.t) (st : State) : State :=
  {| subject := subject st; status := status st; recordMode := recordMode st;
     latestResult := latestResult st; history := f (history st); error := error st;
     apiKey := apiKey st; isApiKeyModalOpen := isApiKeyModalOpen st;
     mediaRecorderRef := mediaRecorderRef st; audioChunksRef := audioChunksRef st;
     streamRef := streamRef st; frameIntervalRef := frameIntervalRef st;
     localStorage := localStorage st; cycles := cycles st; calls := calls st;
     now := now st |}.

(** ** The handlers of [App] *)

Definition Handler := State -> State.

Declare Scope handler_scope.
Delimit Scope handler_scope with handler.
Bind Scope handler_scope with Handler.

(** Statements in sequence. *)
Notation "f ;; g" := (fun st : State => g (f st))
  (at level 100, g at level 200, right associativity) : handler_scope.
Local Open Scope handler_scope.

Definition skip : Handler := fun st => st.

(** In-place change of the objects of cycle [i]. *)
Definition upd_cycle (i : nat) (f : Cycle -> Cycle) : Handler :=
  fun st => set_cycles (alter f i (cycles st)) st.

(** A request goes out to the analysis service. *)
Definition call (rq : ServiceCall) : Handler :=
  fun st => set_calls (calls st ++ [rq]) st.

(** [new Blob(chunks, { type: 'audio/webm' })]: the chunks back to back. *)
Definition Blob (chunks : list string) : string := String.concat "" chunks.

(** [recorder.stop()]: a recording recorder becomes inactive and queues
    its [dataavailable] and [stop] events; on an inactive recorder the
    call does nothing. *)
Definition MediaRecorder_stop (c : Cycle) : Cycle :=
  match c_recorder c with
  | rec_recording => set_c_recorder rec_stopping c
  | _ => c
  end.

(** Lines 174-183. *)
Definition stopMediaTracks : Handler :=
  (fun st =>
     match streamRef st with
     | Some s => set_streamRef None (upd_cycle s (set_c_stream false) st)
     | None => st
     end) ;;
  (fun st =>
     match frameIntervalRef st with
     | Some k => set_frameIntervalRef None (upd_cycle k (set_c_interval None) st)
     | None => st
     end).

(** Lines 185-190. *)
Definition handleSaveApiKey (newApiKey : string) : Handler :=
  setApiKey newApiKey ;;
  set_localStorage (Some newApiKey) ;;
  setIsApiKeyModalOpen false ;;
  setError None.

Definition msg_analysis_failed : string := "分析失敗，請再試一次。".
Definition msg_key_invalid : string := "API 金鑰無效或已過期，請檢查並重新輸入。".
Definition msg_cannot_start : string := "無法啟動麥克風或攝影機，請檢查權限。".

(** The test of line 196. *)
Definition credentialInvalid (err : Thrown) : bool :=
  match err with
  | ErrorObject message =>
      Js.includes "API key not valid" message || Js.includes "API_KEY_INVALID" message
  | NotAnError => false
  end.

(** Lines 192-204. *)
Definition handleApiError (err : Thrown) : Handler :=
  let errorMessage :=
    if credentialInvalid err then msg_key_invalid else msg_analysis_failed in
  (if credentialInvalid err
   then set_localStorage None ;; setApiKey "" ;; setIsApiKeyModalOpen true
   else skip) ;;
  setError (Some errorMessage) ;;
  setStatus idle.

(** Lines 226-231 and 288-293: the identifier is [Date.now().toString()],
    the timestamp [new Date().toISOString()]; the two readings of the clock
    are separate. *)
Definition newRecord (dateNow newDate : Z) (subj : Subject)
    (res : TranslationResult.t) : CryRecord.t :=
  {| CryRecord.id := Js.toString dateNow;
     CryRecord.timestamp := Js.toISOString newDate;
     CryRecord.subject := subj;
     CryRecord.cryType := TranslationResult.cryType res;
     CryRecord.confidence := TranslationResult.confidence res;
     CryRecord.suggestion := TranslationResult.suggestion res;
     CryRecord.behavior := TranslationResult.behavior res |}.

(** Lines 232-234 and 295-297. *)
Definition showRecord (r : CryRecord.t) : Handler :=
  setLatestResult (Some r) ;;
  setHistory (fun prev => r :: prev) ;;
  setStatus result.

(** Lines 281-286. *)
Definition combinedResult (videoResult audioResult : TranslationResult.t)
    : TranslationResult.t :=
  {| TranslationResult.cryType := TranslationResult.cryType audioResult;
     TranslationResult.confidence :=
       ((TranslationResult.confidence audioResult
         + TranslationResult.confidence videoResult) / 2)%float;
     TranslationResult.suggestion :=
       TranslationResult.suggestion videoResult ++ " "
       ++ TranslationResult.suggestion audioResult;
     TranslationResult.behavior := TranslationResult.behavior videoResult |}.

(** Lines 206-213: [startRecording] up to its first [await].  The closure
    keeps the [recordMode], [subject] and [apiKey] of the render in which
    the button was clicked. *)
Definition startRecording : Handler :=
  setError None ;;
  setStatus recording ;;
  setLatestResult None ;;
  (fun st =>
     set_cycles
       (cycles st ++
        [{| c_recordMode := recordMode st; c_subject := subject st;
            c_apiKey := apiKey st; c_pc := AtGetUserMedia; c_stream := false;
            c_recorder := no_recorder; c_frames := []; c_interval := None |}]) st).

(** Lines 213-304: [getUserMedia] resolved with a stream.  The recorder
    is created, started and stored in [mediaRecorderRef]; in video mode the
    frame array, the 500 ms interval and the 5000 ms timeout are created
    first. *)
Definition startRecording_acquired (i : nat) (c : Cycle) : Handler :=
  set_streamRef (Some i) ;;
  upd_cycle i (set_c_stream true) ;;
  match c_recordMode c with
  | audio =>
      set_mediaRecorderRef (Some i) ;;
      set_audioChunksRef [] ;;
      upd_cycle i (set_c_recorder rec_recording) ;;
      upd_cycle i (set_c_pc AtOnstop)
  | video =>
      upd_cycle i (set_c_frames []) ;;
      (fun st => upd_cycle i (set_c_interval (Some (now st + 500))) st) ;;
      set_frameIntervalRef (Some i) ;;
      set_mediaRecorderRef (Some i) ;;
      set_audioChunksRef [] ;;
      upd_cycle i (set_c_recorder rec_recording) ;;
      (fun st => upd_cycle i (set_c_pc (AtTimeout (now st + 5000))) st)
  end.

(** Lines 305-309: [getUserMedia] rejected. *)
Definition startRecording_catch (i : nat) : Handler :=
  setError (Some msg_cannot_start) ;;
  setStatus idle ;;
  upd_cycle i (set_c_pc Returned).

(** Lines 218-220 and 262-264. *)
Definition ondataavailable (data : string) : Handler :=
  fun st => set_audioChunksRef (audioChunksRef st ++ [data]) st.

(** Lines 221-225: the [onstop] handler of an audio cycle up to its
    [await]. *)
Definition onstop (i : nat) (c : Cycle) : Handler :=
  setStatus processing ;;
  (fun st =>
     call (translateAudio (Blob (audioChunksRef st)) (c_subject c) (c_apiKey c)) st) ;;
  upd_cycle i (set_c_pc AtTranslateAudio).

(** Lines 225-239: [translateAudio] settled in the [onstop] handler. *)
Definition onstop_settled (i : nat) (c : Cycle) (o : Outcome) (dateNow newDate : Z)
    : Handler :=
  match o with
  | Fulfilled res => showRecord (newRecord dateNow newDate (c_subject c) res)
  | Rejected err => handleApiError err
  end ;;
  stopMediaTracks ;;
  upd_cycle i (set_c_pc Returned).

(** Line 352: the video and canvas elements exist while the component
    renders in video mode with status recording. *)
Definition videoRef_current (st : State) : bool :=
  match recordMode st, status st with
  | video, recording => true
  | _, _ => false
  end.

(** Lines 246-257: one run of the interval callback of cycle [i].
    [frame] is the payload of the JPEG data URL, or [None] when the canvas
    gives no 2d context.  The browser then schedules the next run. *)
Definition frameInterval_callback (i : nat) (due : Z) (frame : option string) : Handler :=
  (fun st =>
     if videoRef_current st then
       match frame with
       | Some data => upd_cycle i (fun c => set_c_frames (c_frames c ++ [data]) c) st
       | None => st
       end
     else st) ;;
  upd_cycle i (set_c_interval (Some (due + 500))).

(** Lines 267-274: the timeout callback up to its first [await]. *)
Definition timeout_callback (i : nat) (c : Cycle) : Handler :=
  (fun st =>
     match mediaRecorderRef st with
     | Some r => upd_cycle r MediaRecorder_stop st
     | None => st
     end) ;;
  stopMediaTracks ;;
  setStatus processing ;;
  call (analyzeVideoFrames (c_frames c) (c_subject c) (c_apiKey c)) ;;
  upd_cycle i (set_c_pc AtAnalyzeVideoFrames).

(** Lines 274-278 and 299-301: [analyzeVideoFrames] settled. *)
Definition timeout_video_settled (i : nat) (c : Cycle) (o : Outcome) : Handler :=
  match o with
  | Fulfilled videoResult =>
      (fun st =>
         call (translateAudio (Blob (audioChunksRef st)) (c_subject c) (c_apiKey c)) st) ;;
      upd_cycle i (set_c_pc (AtTranslateAudioV videoResult))
  | Rejected err =>
      handleApiError err ;;
      upd_cycle i (set_c_pc Returned)
  end.

(** Lines 278-301: [translateAudio] settled in the timeout callback. *)
Definition timeout_audio_settled (i : nat) (c : Cycle)
    (videoResult : TranslationResult.t) (o : Outcome) (dateNow newDate : Z) : Handler :=
  match o with
  | Fulfilled audioResult =>
      showRecord (newRecord dateNow newDate (c_subject c)
                    (combinedResult videoResult audioResult))
  | Rejected err => handleApiError err
  end ;;
  upd_cycle i (set_c_pc Returned).

(** Lines 312-318. *)
Definition stopRecording : Handler :=
  (fun st =>
     match recordMode st, mediaRecorderRef st with
     | audio, Some r => upd_cycle r MediaRecorder_stop st
     | _, _ => st
     end) ;;
  setStatus processing.

(** Line 361: the [disabled] attribute of the record button. *)
Definition recordButton_disabled (st : State) : bool :=
  match status st with
  | processing => true
  | _ => negb (Js.truthy (apiKey st))
  end.

(** Line 360: the click handler; a disabled button delivers no click. *)
Definition recordButton_onClick : Handler :=
  fun st =>
    if recordButton_disabled st then st
    else match status st with
         | recording => stopRecording st
         | _ => startRecording st
         end.

(** Lines 48-52: the save button of the modal, [key] being its input. *)
Definition ApiKeyModal_handleSave (key : string) : Handler :=
  if Js.truthy (Js.trim key) then handleSaveApiKey (Js.trim key) else skip.

(** Lines 148-172: the first render and the effect that runs after it. *)
Definition initialState (stored : option string) (t0 : Z) : State :=
  {| subject := Baby; status := idle; recordMode := audio; latestResult := None;
     history := []; error := None; apiKey := ""; isApiKeyModalOpen := false;
     mediaRecorderRef := None; audioChunksRef := []; streamRef := None;
     frameIntervalRef := None; localStorage := stored; cycles := []; calls := [];
     now := t0 |}.

Definition useEffect_mount : Handler :=
  fun st =>
    match localStorage st with
    | Some storedApiKey =>
        if Js.truthy storedApiKey then setApiKey storedApiKey st
        else setIsApiKeyModalOpen true st
    | None => setIsApiKeyModalOpen true st
    end.

Definition mounted (stored : option string) (t0 : Z) : State :=
  useEffect_mount (initialState stored t0).

(** ** The event loop *)

(** What can happen next: an action of the user, a promise settling, a
    queued recorder task, a timer, or time passing. *)
Inductive Event :=
| ClickSettings                                  (* line 335 *)
| ModalClose                                     (* lines 57 and 73 *)
| ModalSave (key : string)                       (* line 79 *)
| SelectSubject (s : Subject)                    (* line 344 *)
| ClickMode (m : RecordMode)                     (* lines 346-347 *)
| ClickRecord                                    (* line 360 *)
| GetUserMediaSettled (i : nat) (granted : bool)
| RecorderStopTask (i : nat) (data : string)
| IntervalFires (i : nat) (frame : option string)
| TimeoutFires (i : nat)
| AnalyzeVideoFramesSettled (i : nat) (o : Outcome)
| TranslateAudioSettled (i : nat) (o : Outcome) (dateNow newDate : Z)
| Wait (dt : Z).

(** No timer of the cycle is due before time [t]. *)
Definition timers_after (t : Z) (c : Cycle) : bool :=
  match c_interval c with Some due => t <=? due | None => true end
  && match c_pc c with AtTimeout due => t <=? due | _ => true end.

(** One turn of the event loop; [None] when the event cannot happen in
    the state.
    - The modal is rendered only while it is open, and it can be closed
      without saving only when a key is present (lines 46, 54-57, 72).
    - The task that ends a recorder delivers [dataavailable], then [stop];
      only the recorder of an audio cycle has an [onstop] handler.
    - A timer runs when its time has come, and time does not pass beyond
      a timer that is due. *)
Definition step (e : Event) (st : State) : option State :=
  match e with
  | ClickSettings => Some (setIsApiKeyModalOpen true st)
  | ModalClose =>
      if isApiKeyModalOpen st && Js.truthy (apiKey st)
      then Some (setIsApiKeyModalOpen false st) else None
  | ModalSave key =>
      if isApiKeyModalOpen st then Some (ApiKeyModal_handleSave key st) else None
  | SelectSubject s => Some ((setSubject s ;; setLatestResult None) st)
  | ClickMode m => Some (setRecordMode m st)
  | ClickRecord => Some (recordButton_onClick st)
  | GetUserMediaSettled i granted =>
      match cycles st !! i with
      | Some c =>
          match c_pc c with
          | AtGetUserMedia =>
              Some (if granted then startRecording_acquired i c st
                    else startRecording_catch i st)
          | _ => None
          end
      | None => None
      end
  | RecorderStopTask i data =>
      match cycles st !! i with
      | Some c =>
          match c_recorder c with
          | rec_stopping =>
              Some ((ondataavailable data ;;
                     upd_cycle i (set_c_recorder rec_inactive) ;;
                     match c_recordMode c with
                     | audio => onstop i c
                     | video => skip
                     end) st)
          | _ => None
          end
      | None => None
      end
  | IntervalFires i frame =>
      match cycles st !! i with
      | Some c =>
          match c_interval c with
          | Some due =>
              if due <=? now st then Some (frameInterval_callback i due frame st)
              else None
          | None => None
          end
      | None => None
      end
  | TimeoutFires i =>
      match cycles st !! i with
      | Some c =>
          match c_pc c with
          | AtTimeout due =>
              if due <=? now st then Some (timeout_callback i c st) else None
          | _ => None
          end
      | None => None
      end
  | AnalyzeVideoFramesSettled i o =>
      match cycles st !! i with
      | Some c =>
          match c_pc c with
          | AtAnalyzeVideoFrames => Some (timeout_video_settled i c o st)
          | _ => None
          end
      | None => None
      end
  | TranslateAudioSettled i o dateNow newDate =>
      match cycles st !! i with
      | Some c =>
          match c_pc c with
          | AtTranslateAudio => Some (onstop_settled i c o dateNow newDate st)
          | AtTranslateAudioV videoResult =>
              Some (timeout_audio_settled i c videoResult o dateNow newDate st)
          | _ => None
          end
      | None => None
      end
  | Wait dt =>
      if (0 <=? dt) && forallb (timers_after (now st + dt)) (cycles st)
      then Some (set_now (now st + dt) st) else None
  end.

(** A run of the event loop. *)
Fixpoint run (es : list Event) (st : State) : option State :=
  match es with
  | [] => Some st
  | e :: es' =>
      match step e st with
      | Some st' => run es' st'
      | None => None
      end
  end.

(** The states the component can be in: a run from the mounted
    component, whatever localStorage held. *)
Definition reachable (st : State) : Prop :=
  exists stored t0 es, run es (mounted stored t0) = Some st.

(** The capture device is held: some stream has live tracks. *)
Definition device_held (st : State) : bool :=
  existsb c_stream (cycles st).

(** A frame-sampling interval is scheduled. *)
Definition interval_scheduled (st : State) : bool :=
  existsb (fun c => bool_decide (is_Some (c_interval c))) (cycles st).

(** A budget timeout is scheduled. *)
Definition timeout_scheduled (st : State) : bool :=
  existsb (fun c => match c_pc c with AtTimeout _ => true | _ => false end) (cycles st).

(** A request to the analysis service is in flight. *)
Definition call_in_flight (st : State) : bool :=
  existsb (fun c => match c_pc c with
                    | AtTranslateAudio | AtAnalyzeVideoFrames | AtTranslateAudioV _ => true
                    | _ => false
                    end) (cycles st).

(** ** The invariant of the event loop

    What a cycle owns at each point of its body, and how the cells of the
    component relate to it.  At most one cycle has not returned, and it is
    the newest one. *)

Definition cycle_ok (c : Cycle) : Prop :=
  match c_pc c with
  | AtGetUserMedia =>
      c_stream c = false /\ c_interval c = None /\ c_recorder c = no_recorder
  | AtOnstop =>
      c_recordMode c = audio /\ c_interval c = None
      /\ (c_recorder c = rec_recording \/ c_recorder c = rec_stopping)
  | AtTimeout _ => c_recordMode c = video
  | AtTranslateAudio =>
      c_recordMode c = audio /\ c_interval c = None /\ c_recorder c = rec_inactive
  | AtAnalyzeVideoFrames | AtTranslateAudioV _ =>
      c_recordMode c = video /\ c_stream c = false /\ c_interval c = None
  | Returned =>
      c_stream c = false /\ c_interval c = None
      /\ (c_recordMode c = audio ->
          c_recorder c = no_recorder \/ c_recorder c = rec_inactive)
  end.

Definition status_ok (s : Status) (c : Cycle) : Prop :=
  match c_pc c with
  | Returned => True
  | AtTranslateAudio | AtAnalyzeVideoFrames | AtTranslateAudioV _ => s = processing
  | _ => s = recording \/ s = processing
  end.

Definition cycle_inv (s : Status) (sref fref : option nat) (n : nat) (key : string)
    (i : nat) (c : Cycle) : Prop :=
  cycle_ok c
  /\ status_ok s c
  /\ (c_stream c = true -> sref = Some i)
  /\ (c_interval c <> None -> fref = Some i)
  /\ (c_pc c <> Returned -> S i = n /\ key <> "").

Definition Inv (st : State) : Prop :=
  (apiKey st = "" -> isApiKeyModalOpen st = true /\ status st = idle)
  /\ forall i c, cycles st !! i = Some c ->
       cycle_inv (status st) (streamRef st) (frameIntervalRef st)
         (length (cycles st)) (apiKey st) i c.

(** A cycle that has returned and holds nothing any more. *)
Definition dead (c : Cycle) : Prop := c_pc c = Returned /\ cycle_ok c.

(** What [stopMediaTracks] does to a cycle whose stream and interval the
    two cells point at. *)
Definition release (c : Cycle) : Cycle := set_c_interval None (set_c_stream false c).

(** The stream and interval cells point at whatever is live. *)
Definition refs_ok (st : State) : Prop :=
  forall j c, cycles st !! j = Some c ->
    (c_stream c = true -> streamRef st = Some j)
    /\ (c_interval c <> None -> frameIntervalRef st = Some j).

(** The events of the timers alone, the canvas giving a frame each time:
    what happens when the user does nothing. *)
Definition timer_event (e : Event) : bool :=
  match e with
  | Wait _ | IntervalFires _ (Some _) | TimeoutFires _ => true
  | _ => false
  end.

(** [msg] contains [needle]. *)
Definition contains (needle msg : string) : Prop :=
  exists before after, msg = before ++ needle ++ after.

(** The error an event reports when it is the failure of an analysis
    call. *)
Definition analysis_failure (e : Event) : option Thrown :=
  match e with
  | AnalyzeVideoFramesSettled _ (Rejected err) => Some err
  | TranslateAudioSettled _ (Rejected err) _ _ => Some err
  | _ => None
  end.

(** The error is an [Error] whose message contains one of the two
    invalid-credential indicators. *)
Definition credential_indicator (err : Thrown) : Prop :=
  exists msg, err = ErrorObject msg
              /\ (contains "API key not valid" msg \/ contains "API_KEY_INVALID" msg).

(** Cycle [i] of the list stands at [p]. *)
Definition pc_at (i : nat) (l : list Cycle) (p : Pc) : Prop :=
  exists c, l !! i = Some c /\ c_pc c = p.

(** ** A video cycle on its budget

    Every cycle but [i] has returned. *)
Definition others_dead (i : nat) (st : State) : Prop :=
  forall j cj, cycles st !! j = Some cj -> j <> i -> dead cj.

(** The budget timer of cycle [i], set at [t0], is pending: the status is
    recording, the three cells point at the cycle, its stream is live and its
    recorder records; with [k] frames taken the interval is next due at
    [t0 + 500 (k + 1)], and the clock is between the last run of the interval
    and that time, and not beyond [t0 + 5000]. *)
Definition capturing (t0 : Z) (i : nat) (subj : Subject) (key : string) (st : State)
    : Prop :=
  recordMode st = video /\ status st = recording
  /\ mediaRecorderRef st = Some i /\ streamRef st = Some i
  /\ frameIntervalRef st = Some i /\ others_dead i st
  /\ exists c,
       cycles st !! i = Some c
       /\ c_subject c = subj /\ c_apiKey c = key
       /\ c_pc c = AtTimeout (t0 + 5000)
       /\ c_stream c = true /\ c_recorder c = rec_recording
       /\ let k := Z.of_nat (length (c_frames c)) in
          c_interval c = Some (t0 + 500 * (k + 1))
          /\ t0 + 500 * k <= now st <= t0 + 500 * (k + 1)
          /\ now st <= t0 + 5000.

(** The budget timer of cycle [i] has fired: the status is processing, the
    stream is stopped, the interval cancelled, the recorder stopped, and the
    9 or 10 frames taken have been sent to [analyzeVideoFrames]. *)
Definition expired (t0 : Z) (i : nat) (subj : Subject) (key : string) (st : State)
    : Prop :=
  status st = processing /\ t0 + 5000 <= now st /\ others_dead i st
  /\ exists c,
       cycles st !! i = Some c
       /\ c_pc c = AtAnalyzeVideoFrames
       /\ c_stream c = false /\ c_interval c = None
       /\ c_recorder c = rec_stopping
       /\ 9 <= Z.of_nat (length (c_frames c)) <= 10
       /\ last (calls st) = Some (analyzeVideoFrames (c_frames c) subj key).

(** The frames cycle [i] has taken. *)
Definition frames_at (i : nat) (st : State) : list string :=
  match cycles st !! i with Some c => c_frames c | None => [] end.

(** The timers of a video cycle when nothing else happens: the interval
    every 500 ms, each time with a frame, then the budget timer. *)
Definition tick (i : nat) (frame : string) : list Event :=
  [Wait 500; IntervalFires i (Some frame)].

Fixpoint ticks (i : nat) (frames : list string) : list Event :=
  match frames with
  | [] => []
  | f :: fs => (tick i f ++ ticks i fs)%list
  end.

Definition budget_schedule (i : nat) (frames : list string) : list Event :=
  (ticks i frames ++ [Wait 500; TimeoutFires i])%list.

(** The state a run ends in. *)
Definition after (es : list Event) (st : State) : State :=
  match run es st with
  | Some st' => st'
  | None => st
  end.

(** ** Sample runs, for the examples *)

Definition alert_bark : TranslationResult.t :=
  TranslationResult.mk "Alert Bark" 0.82 "Check surroundings" None.

Definition calm_video : TranslationResult.t :=
  TranslationResult.mk "Calm" 0.9 "Keep watching." (Some "Waving arms").

Definition hungry_audio : TranslationResult.t :=
  TranslationResult.mk "Hungry" 0.7 "Feed the baby." None.

Definition key_rejected : Thrown :=
  ErrorObject "[400 Bad Request] API key not valid. Please pass a valid API key.".

Definition nine_frames : list string :=
  ["f1"; "f2"; "f3"; "f4"; "f5"; "f6"; "f7"; "f8"; "f9"].

(** No key in localStorage: the component has just mounted. *)
Definition st_no_key : State := mounted None 0.

(** Audio mode, subject Dog: recording, then stopped with the analysis in
    flight, then the result. *)
Definition st_audio_recording : State :=
  after [SelectSubject Dog; ClickRecord; GetUserMediaSettled 0 true]
    (mounted (Some "key") 0).

Definition st_audio_in_flight : State :=
  after [ClickRecord; RecorderStopTask 0 "chunk"] st_audio_recording.

Definition st_dog_result : State :=
  after [TranslateAudioSettled 0 (Fulfilled alert_bark) 1700000000000 1700000000001]
    st_audio_in_flight.

(** Video mode: the device has been asked for; then granted and one frame
    taken; then stop pressed; or else left alone until the budget timer is
    due; then the timer fired and the video analysis succeeded. *)
Definition st_video_asked : State :=
  after [ClickMode video; ClickRecord] (mounted (Some "key") 0).

Definition st_video_recording : State :=
  after (GetUserMediaSettled 0 true :: tick 0 "f1") st_video_asked.

Definition st_video_stopped_early : State := after [ClickRecord] st_video_recording.

Definition st_video_due : State :=
  after (GetUserMediaSettled 0 true :: ticks 0 nine_frames ++ [Wait 500])%list
    st_video_asked.

Definition st_video_expired : State := after [TimeoutFires 0] st_video_due.

Definition st_video_audio_pending : State :=
  after [RecorderStopTask 0 "chunk"; AnalyzeVideoFramesSettled 0 (Fulfilled calm_video)]
    st_video_expired.

Definition st_video_result : State :=
  after [TranslateAudioSettled 0 (Fulfilled hungry_audio) 1700000005000 1700000005000]
    st_video_audio_pending.

(** ** The status, the key and the latest result *)

(** The moves of the status cell: from idle and from result only to
    recording, from recording to processing or back to idle, from
    processing to result or to idle. *)
Definition allowed (s s' : Status) : bool :=
  match s, s' with
  | idle, idle | idle, recording => true
  | recording, recording | recording, processing | recording, idle => true
  | processing, processing | processing, result | processing, idle => true
  | result, result | result, recording => true
  | _, _ => false
  end.

(** What [localStorage.getItem('geminiApiKey')] stands for when the
    component reads it: an absent item counts as the empty string. *)
Definition stored_key (st : State) : string :=
  match localStorage st with Some k => k | None => "" end.

(** The cells of the store that the cycles do not own: the key in use is
    the stored one, an error is there only while idle, and the latest result
    is there only with status result and is the newest record. *)
Definition store_ok (st : State) : Prop :=
  apiKey st = stored_key st
  /\ (error st <> None -> status st = idle)
  /\ (forall r, latestResult st = Some r ->
        status st = result /\ head (history st) = Some r).

(** ** What the component renders *)

(** Lines 9-25. *)
Record Config := {
  title : string;
  subtitle : string;
  recordPlaceholder : RecordMode -> string
}.

Definition SUBJECT_CONFIG (s : Subject) : Config :=
  match s with
  | Baby =>
      {| title := "寶寶行為解讀器";
         subtitle := "AI 助您解讀寶寶的聲音、表情與動作";
         recordPlaceholder := fun mode =>
           match mode with audio => "錄製聲音" | video => "錄製行為" end |}
  | Dog =>
      {| title := "狗狗行為解讀器";
         subtitle := "AI 助您解讀汪星人的吠叫與肢體語言";
         recordPlaceholder := fun mode =>
           match mode with audio => "錄製吠叫聲" | video => "錄製行為" end |}
  | Cat =>
      {| title := "貓咪行為解讀器";
         subtitle := "AI 助您解讀喵星語及身體信號";
         recordPlaceholder := fun mode =>
           match mode with audio => "錄製喵喵聲" | video => "錄製行為" end |}
  end.

(** The element tree of lines 322-402, as far as it depends on the state:
    the modal when it is open, with whether it offers to cancel (lines 46,
    54, 72); the header; the selected subject and mode; the video preview;
    the record button; the status line; the hint about the key; the alert;
    the card of the latest result; the history section with its cards.  A
    card stands for the record it is given. *)
Record View := {
  v_modal : option bool;
  v_title : string;
  v_subtitle : string;
  v_selected : Subject;
  v_mode : RecordMode;
  v_preview : bool;
  v_button_disabled : bool;
  v_button_label : string;
  v_statusText : string;
  v_keyHint : bool;
  v_alert : option string;
  v_latest : option CryRecord.t;
  v_history : option (list CryRecord.t)
}.

Definition render (st : State) : View :=
  let config := SUBJECT_CONFIG (subject st) in
  {| v_modal :=
       if isApiKeyModalOpen st then Some (Js.truthy (apiKey st)) else None;
     v_title := title config;
     v_subtitle := subtitle config;
     v_selected := subject st;
     v_mode := recordMode st;
     v_preview := videoRef_current st;
     v_button_disabled := recordButton_disabled st;
     v_button_label :=
       match status st with recording => "停止錄製" | _ => "開始錄製" end;
     v_statusText :=
       match status st with
       | idle => recordPlaceholder config (recordMode st)
       | recording =>
           match recordMode st with
           | video => "錄影中... (5秒)"
           | audio => "錄音中..."
           end
       | processing => "分析中，請稍候..."
       | result => "分析完成！"
       end;
     v_keyHint :=
       negb (Js.truthy (apiKey st))
       && match status st with idle => true | _ => false end;
     v_alert :=
       match error st with
       | Some e => if Js.truthy e then Some e else None
       | None => None
       end;
     v_latest :=
       match latestResult st, status st with
       | Some r, result => Some r
       | _, _ => None
       end;
     v_history :=
       if (1 <? Z.of_nat (length (history st)))
       then Some (drop 1 (history st)) else None |}.

(** The records on the screen, from top to bottom. *)
Definition displayed (v : View) : list CryRecord.t :=
  (option_list (v_latest v) ++ default [] (v_history v))%list.


(** The subject is changed while the result of the first analysis is on
    the screen. *)
Definition st_result_dismissed : State := after [SelectSubject Cat] st_dog_result.

(** ** Cycles and their requests *)

(** What the closure of a cycle has kept from the render of its click. *)
Definition captured (c : Cycle) : RecordMode * Subject * string :=
  (c_recordMode c, c_subject c, c_apiKey c).

(** The subject and the key a request is sent with. *)
Definition call_subject (rq : ServiceCall) : Subject :=
  match rq with
  | translateAudio _ s _ | analyzeVideoFrames _ s _ => s
  end.

Definition call_apiKey (rq : ServiceCall) : string :=
  match rq with
  | translateAudio _ _ k | analyzeVideoFrames _ _ k => k
  end.

(** Every cycle was started with a key, and every request sent so far
    carries the subject and the key of a cycle. *)
Definition requests_ok (st : State) : Prop :=
  (forall i c, cycles st !! i = Some c -> c_apiKey c <> "")
  /\ forall rq, rq ∈ calls st ->
       exists i c, cycles st !! i = Some c
                   /\ call_subject rq = c_subject c /\ call_apiKey rq = c_apiKey c.


(** Subject Dog and the key "key" when the recording starts; while it runs
    the subject is changed to Cat and another key is saved; then the
    recording is stopped. *)
Definition st_changed_meanwhile : State :=
  after [SelectSubject Cat; ClickSettings; ModalSave "other"; ClickRecord;
         RecorderStopTask 0 "chunk"] st_audio_recording.

(** ** A recorder nobody stops *)

(** The status is processing while the recorder of audio cycle [i] is
    still recording, its stream live, and its [onstop] handler waiting. *)
Definition stranded (i : nat) (st : State) : Prop :=
  status st = processing
  /\ exists c, cycles st !! i = Some c
               /\ c_recordMode c = audio /\ c_pc c = AtOnstop
               /\ c_recorder c = rec_recording /\ c_stream c = true.

(** The mode is switched to video while an audio recording runs, then the
    button is pressed. *)
Definition st_stopped_in_video_mode : State :=
  after [ClickMode video; ClickRecord] st_audio_recording.

(** ** The frames of a video cycle *)

(** Stop is pressed in video mode after one frame; the timers go on, the
    canvas offering a frame each time, until the budget timer is due. *)
Definition st_video_stopped_due : State :=
  after (ticks 0 (drop 1 nine_frames) ++ [Wait 500])%list st_video_stopped_early.

(** The frames of a cycle against the clock [t]: while the budget timer,
    due at [due], is pending, the clock has not passed it, and the interval
    is next due at [due - 5000 + 500 (k + 1)] for some [k] that bounds the
    number of frames taken. *)
Definition frames_ok (t : Z) (c : Cycle) : Prop :=
  (length (c_frames c) <= 10)%nat
  /\ match c_pc c with
     | AtTimeout due =>
         t <= due
         /\ match c_interval c with
            | Some d =>
                exists k : Z, d = due - 5000 + 500 * (k + 1)
                              /\ Z.of_nat (length (c_frames c)) <= k
            | None => True
            end
     | _ => True
     end.

Definition cycles_frames_ok (t : Z) (l : list Cycle) : Prop :=
  forall i c, l !! i = Some c -> frames_ok t c.

Definition calls_frames_ok (q : list ServiceCall) : Prop :=
  forall frames subj key,
    analyzeVideoFrames frames subj key ∈ q -> (length frames <= 10)%nat.

Definition frames_inv (st : State) : Prop :=
  cycles_frames_ok (now st) (cycles st) /\ calls_frames_ok (calls st).

(** ** Busy and pending *)

(** A cycle of the list has not returned. *)
Definition pending (l : list Cycle) : Prop :=
  exists i p, pc_at i l p /\ p <> Returned.

(** The status is recording or processing. *)
Definition busy (s : Status) : Prop := s = recording \/ s = processing.

(** ** The key the modal saves *)



(** Video mode, a key in place, nothing recorded yet; and the button
    pressed twice before the camera is granted, the timers then left to run
    until the budget timer is due. *)
Definition st_video_mode : State := after [ClickMode video] (mounted (Some "key") 0).

Definition st_video_unseen_due : State :=
  after ([ClickRecord; ClickRecord; GetUserMediaSettled 0 true]
         ++ ticks 0 nine_frames ++ [Wait 500])%list st_video_mode.

(** * Properties *)

(** ** JavaScript strings *)

Example toISOString_epoch : Js.toISOString 0 = "1970-01-01T00:00:00.000Z".
Proof. vm_compute. reflexivity. Qed.

Example toISOString_2023 : Js.toISOString 1700000000000 = "2023-11-14T22:13:20.000Z".
Proof. vm_compute. reflexivity. Qed.

Example toISOString_leap : Js.toISOString 951868799999 = "2000-02-29T23:59:59.999Z".
Proof. vm_compute. reflexivity. Qed.

Example toISOString_before : Js.toISOString (-1) = "1969-12-31T23:59:59.999Z".
Proof. vm_compute. reflexivity. Qed.

Example toISOString_bc : Js.toISOString (-62198755200001) = "-000002-12-31T23:59:59.999Z".
Proof. vm_compute. reflexivity. Qed.

Example toISOString_far : Js.toISOString 253402300800000 = "+010000-01-01T00:00:00.000Z".
Proof. vm_compute. reflexivity. Qed.

Example trim_ex : Js.trim (" 	abc d " ++ String "194" (String "160" "")) = "abc d".
Proof. vm_compute. reflexivity. Qed.

Example includes_ex : Js.includes "API_KEY_INVALID" "[400] API_KEY_INVALID: bad" = true.
Proof. reflexivity. Qed.

Lemma startsWith_spec p s :
  Js.startsWith p s = true <-> exists rest, s = p ++ rest.
Proof.
  revert s. induction p as [|a p IH]; intros s; simpl.
  - split; [intros _; exists s; reflexivity | reflexivity].
  - destruct s as [|b s].
    + split; [discriminate | intros [rest H]; discriminate].
    + destruct (Ascii.eqb_spec a b) as [->|Hne].
      * rewrite IH. split; intros [rest H]; exists rest.
        -- simpl. now rewrite H.
        -- simpl in H. now inversion H.
      * split; [discriminate | intros [rest H]].
        simpl in H. injection H as H1 H2. congruence.
Qed.

Lemma includes_spec needle s :
  Js.includes needle s = true <-> contains needle s.
Proof.
  unfold contains. induction s as [|b s IH]; simpl.
  - rewrite orb_false_r, startsWith_spec. split.
    + intros [rest H]. exists "", rest. exact H.
    + intros [[|x before] [after H]].
      * exists after. exact H.
      * discriminate.
  - rewrite orb_true_iff, IH, startsWith_spec. split.
    + intros [[rest H] | [before [after H]]].
      * exists "", rest. exact H.
      * exists (String b before), after. simpl. now rewrite H.
    + intros [[|x before] [after H]].
      * left. exists after. exact H.
      * right. exists before, after. simpl in H. now inversion H.
Qed.

Lemma truthy_spec s : Js.truthy s = true <-> s <> "".
Proof. destruct s; simpl; split; congruence. Qed.

Lemma to_int_nonnil z :
  Z.to_int z <> Decimal.Pos Decimal.Nil /\ Z.to_int z <> Decimal.Neg Decimal.Nil.
Proof.
  destruct z as [|p|p]; simpl; split; try discriminate;
    intros H; injection H as H; now apply Unsigned.to_uint_nonnil in H.
Qed.

Lemma toString_inj a b : Js.toString a = Js.toString b -> a = b.
Proof.
  unfold Js.toString. intros H.
  apply (f_equal NilZero.int_of_string) in H.
  destruct (to_int_nonnil a) as [Ha1 Ha2], (to_int_nonnil b) as [Hb1 Hb2].
  rewrite !NilZero.isi in H by assumption. injection H as H.
  apply (f_equal Z.of_int) in H. now rewrite !DecimalZ.of_to in H.
Qed.

(** ** The invariant holds in every reachable state *)

Ltac unfold_handlers :=
  unfold recordButton_onClick, startRecording, stopRecording, startRecording_acquired,
    startRecording_catch, ondataavailable, onstop, onstop_settled,
    frameInterval_callback, timeout_callback, timeout_video_settled,
    timeout_audio_settled, ApiKeyModal_handleSave, handleSaveApiKey, handleApiError,
    showRecord, stopMediaTracks, upd_cycle, call, skip in *.

Lemma alter_lookup_inv {A} (f : A -> A) i (l : list A) j c' :
  alter f i l !! j = Some c' ->
  exists c, l !! j = Some c /\ ((i = j /\ c' = f c) \/ (i <> j /\ c' = c)).
Proof.
  intros H. destruct (decide (i = j)) as [->|Hne].
  - rewrite list_lookup_alter_eq in H. destruct (l !! j) as [c|]; [|discriminate].
    exists c. simpl in H. injection H as <-. auto.
  - rewrite list_lookup_alter_ne in H by done. exists c'. auto.
Qed.

Ltac inv_alter H :=
  let c := fresh "c" in
  apply alter_lookup_inv in H; destruct H as (c & H & [[? ?]|[? ?]]); subst.

Lemma dead_inv c s sref fref n key i : dead c -> cycle_inv s sref fref n key i c.
Proof.
  intros [Hpc Hok]. unfold cycle_inv, status_ok. unfold cycle_ok in *.
  rewrite Hpc in *. destruct Hok as (Hs & Hi & Hr). rewrite Hs, Hi.
  repeat split; auto; try congruence.
Qed.

Lemma dead_stop c : dead c -> dead (MediaRecorder_stop c).
Proof.
  unfold dead, MediaRecorder_stop, cycle_ok. intros [Hpc Hok].
  destruct (c_recorder c) eqn:Hr; simpl; rewrite ?Hpc in *; rewrite ?Hr; auto.
  split; auto. destruct Hok as (? & ? & H). repeat split; auto.
  intros Ha. destruct (H Ha); discriminate.
Qed.

Lemma dead_stream c : dead c -> dead (set_c_stream false c).
Proof.
  unfold dead, cycle_ok. simpl. intros [Hpc Hok]. rewrite Hpc in *. tauto.
Qed.

Lemma dead_interval c : dead c -> dead (set_c_interval None c).
Proof.
  unfold dead, cycle_ok. simpl. intros [Hpc Hok]. rewrite Hpc in *. tauto.
Qed.

Lemma dead_recorder_inactive c : dead c -> dead (set_c_recorder rec_inactive c).
Proof.
  unfold dead, cycle_ok. simpl. intros [Hpc Hok]. rewrite Hpc in *. tauto.
Qed.

Lemma pc_returned_dec p : p = Returned \/ p <> Returned.
Proof. destruct p; auto; right; discriminate. Qed.

Lemma inv_active_last st i c :
  Inv st -> cycles st !! i = Some c -> c_pc c <> Returned ->
  S i = length (cycles st) /\ apiKey st <> "".
Proof. intros [_ H] Hi Hpc. apply (H i c Hi). exact Hpc. Qed.

Lemma inv_dead st j c :
  Inv st -> cycles st !! j = Some c -> c_pc c = Returned -> dead c.
Proof. intros [_ H] Hj Hpc. split; [exact Hpc|]. apply (H j c Hj). Qed.

Lemma inv_others st i c j cj :
  Inv st -> cycles st !! i = Some c -> c_pc c <> Returned ->
  cycles st !! j = Some cj -> i <> j -> dead cj.
Proof.
  intros HI Hi Hpc Hj Hne.
  destruct (pc_returned_dec (c_pc cj)) as [Hd|Hd].
  - eapply inv_dead; eauto.
  - destruct (inv_active_last st i c HI Hi Hpc) as [E1 _].
    destruct (inv_active_last st j cj HI Hj Hd) as [E2 _]. lia.
Qed.

Lemma inv_quiet st j c :
  Inv st -> status st = idle \/ status st = result ->
  cycles st !! j = Some c -> dead c.
Proof.
  intros HI Hs Hj. destruct (pc_returned_dec (c_pc c)) as [Hd|Hd].
  - eapply inv_dead; eauto.
  - destruct HI as [_ H]. destruct (H j c Hj) as (_ & Hst & _).
    unfold status_ok in Hst. destruct (c_pc c); try congruence;
      destruct Hs as [Hs|Hs]; rewrite Hs in Hst; intuition discriminate.
Qed.



Lemma status_ok_processing s c : status_ok s c -> status_ok processing c.
Proof. unfold status_ok. destruct (c_pc c); auto. Qed.

Lemma cycle_ok_stop c : cycle_ok c -> cycle_ok (MediaRecorder_stop c).
Proof.
  unfold MediaRecorder_stop. destruct (c_recorder c) eqn:Hr; auto.
  unfold cycle_ok. cbn. destruct (c_pc c); rewrite ?Hr; intuition congruence.
Qed.

Lemma cycle_inv_stop s sref fref n key i c :
  cycle_inv s sref fref n key i c -> cycle_inv s sref fref n key i (MediaRecorder_stop c).
Proof.
  intros (Hok & Hst & H1 & H2 & H3). split; [now apply cycle_ok_stop|].
  unfold MediaRecorder_stop, status_ok in *.
  destruct (c_recorder c); cbn; tauto.
Qed.

Lemma cycle_inv_status s s' sref fref n key i c :
  cycle_inv s sref fref n key i c -> status_ok s' c -> cycle_inv s' sref fref n key i c.
Proof. unfold cycle_inv. tauto. Qed.

Lemma cycle_inv_key s sref fref n key key' i c :
  cycle_inv s sref fref n key i c -> key' <> "" -> cycle_inv s sref fref n key' i c.
Proof.
  unfold cycle_inv. tauto.
Qed.

(** A cycle that has returned stays so under what other code can still do to
    its objects. *)
Ltac dead_tac :=
  apply dead_inv;
  repeat first [ apply dead_stop | apply dead_stream | apply dead_interval
               | apply dead_recorder_inactive ];
  eauto using inv_others, inv_quiet, inv_dead.

Ltac cyc_tac :=
  unfold cycle_inv, cycle_ok, status_ok in *; cbn in *;
  repeat match goal with
         | H : c_pc ?c = _ |- _ => rewrite H in *
         | H : c_recorder ?c = _ |- _ => rewrite H in *
         | H : c_recordMode ?c = _ |- _ => rewrite H in *
         | H : c_interval ?c = _ |- _ => rewrite H in *
         end; cbn in *;
  try solve [exfalso; tauto | exfalso; intuition congruence];
  repeat split; try tauto; try congruence; try lia;
  try solve [intuition (try congruence; try lia)].

Lemma Inv_click st : Inv st -> Inv (recordButton_onClick st).
Proof.
  intros HI. unfold recordButton_onClick.
  destruct (recordButton_disabled st) eqn:Hd; [assumption|].
  unfold recordButton_disabled in Hd.
  assert (Hkey : apiKey st <> "").
  { destruct (status st); try discriminate;
      apply negb_false_iff, truthy_spec in Hd; exact Hd. }
  destruct (status st) eqn:Hs; try discriminate.
  1,3: unfold_handlers; unfold Inv; cbn; split; [intros; contradiction|];
       intros j c' Hj; rewrite length_app; cbn;
       apply lookup_app_Some in Hj as [Hj|[Hl Hj]];
       [ apply dead_inv; eapply inv_quiet; eauto; rewrite Hs; auto
       | destruct (j - length (cycles st))%nat eqn:E; [|destruct n; discriminate];
         cbn in Hj; injection Hj as <-; cyc_tac ].
  destruct HI as [HK HC]. rewrite Hs in HC. unfold_handlers.
  destruct (recordMode st) eqn:Hm, (mediaRecorderRef st) eqn:Hr; unfold Inv; cbn;
    (split; [intros; contradiction|]); intros j c' Hj;
    rewrite ?length_alter; try inv_alter Hj.
  all: specialize (HC _ _ Hj); try apply cycle_inv_stop;
       (eapply cycle_inv_status; [eassumption|]);
       eapply status_ok_processing; apply HC.
Qed.

Lemma Inv_frame st st' :
  cycles st' = cycles st -> status st' = status st ->
  streamRef st' = streamRef st -> frameIntervalRef st' = frameIntervalRef st ->
  (apiKey st' = apiKey st \/ apiKey st' <> "") ->
  (apiKey st' = "" -> isApiKeyModalOpen st' = true) ->
  Inv st -> Inv st'.
Proof.
  intros Hc Hs Hsr Hfr Hk Hm [HK HC]. split.
  - intros E. split; [auto|]. rewrite Hs. apply HK. destruct Hk; congruence.
  - intros j c Hj. rewrite Hc in *. rewrite Hs, Hsr, Hfr.
    specialize (HC j c Hj). destruct Hk as [->|Hk]; [exact HC|].
    eapply cycle_inv_key; eauto.
Qed.

(** Case analysis on the cells a handler reads. *)
Ltac case_refs :=
  repeat (cbn;
          match goal with
          | |- context [match mediaRecorderRef ?s with _ => _ end] =>
              destruct (mediaRecorderRef s) eqn:?
          | |- context [match streamRef ?s with _ => _ end] =>
              destruct (streamRef s) eqn:?
          | |- context [match frameIntervalRef ?s with _ => _ end] =>
              destruct (frameIntervalRef s) eqn:?
          end); cbn.

(** The cycle an event belongs to: its facts from the invariant. *)
Ltac active HI Hi Hpc :=
  let Hlast := fresh "Hlast" in
  let Hkey := fresh "Hkey" in
  let Hci := fresh "Hci" in
  assert (Hlast := inv_active_last _ _ _ HI Hi ltac:(rewrite Hpc; discriminate));
  destruct Hlast as [Hlast Hkey];
  assert (Hci := proj2 HI _ _ Hi).

Ltac other HI Hi Hpc :=
  match goal with
  | Hj : cycles _ !! ?j = Some ?c0 |- cycle_inv _ _ _ _ _ ?j _ =>
      first
        [ rewrite Hi in Hj; injection Hj as <-
        | (assert (dead c0)
            by (eapply (inv_others _ _ _ j c0 HI Hi);
                [rewrite Hpc; discriminate | exact Hj | congruence]));
          dead_tac ]
  end.

Lemma Inv_acquired st i c :
  Inv st -> cycles st !! i = Some c -> c_pc c = AtGetUserMedia ->
  Inv (startRecording_acquired i c st).
Proof.
  intros HI Hi Hpc. active HI Hi Hpc.
  unfold_handlers. destruct (c_recordMode c) eqn:Hm; unfold Inv; cbn;
    rewrite ?length_alter.
  all: split; [intros; contradiction|]; intros j c' Hj; repeat inv_alter Hj;
    try congruence; other HI Hi Hpc.
  all: cyc_tac.
Qed.

Lemma Inv_catch st i c :
  Inv st -> cycles st !! i = Some c -> c_pc c = AtGetUserMedia ->
  Inv (startRecording_catch i st).
Proof.
  intros HI Hi Hpc. active HI Hi Hpc.
  unfold_handlers. unfold Inv; cbn; rewrite ?length_alter.
  split; [intros E; split; [apply HI; exact E|reflexivity]|].
  intros j c' Hj; repeat inv_alter Hj; try congruence; other HI Hi Hpc.
  cyc_tac.
Qed.

Lemma Inv_stop_task st i c data :
  Inv st -> cycles st !! i = Some c -> c_recorder c = rec_stopping ->
  Inv ((ondataavailable data ;;
        upd_cycle i (set_c_recorder rec_inactive) ;;
        match c_recordMode c with
        | audio => onstop i c
        | video => skip
        end)%handler st).
Proof.
  intros HI Hi Hrec. assert (Hci := proj2 HI _ _ Hi).
  destruct (c_recordMode c) eqn:Hm.
  - (* the recorder of an audio cycle: the cycle is at its onstop *)
    assert (Hpc : c_pc c = AtOnstop).
    { destruct Hci as (Hok & _). unfold cycle_ok in Hok.
      destruct (c_pc c); try reflexivity; rewrite ?Hm, ?Hrec in Hok;
        intuition congruence. }
    active HI Hi Hpc.
    unfold_handlers. unfold Inv; cbn; rewrite ?length_alter.
    split; [intros; contradiction|].
    intros j c' Hj; repeat inv_alter Hj; try congruence; other HI Hi Hpc.
    cyc_tac.
  - unfold_handlers. unfold Inv; cbn; rewrite ?length_alter.
    split; [apply HI|].
    intros j c' Hj; repeat inv_alter Hj; [|apply HI; exact Hj].
    rewrite Hi in Hj; injection Hj as <-.
    destruct (c_pc c) eqn:Hpc; cyc_tac.
Qed.

Lemma Inv_interval st i c due frame :
  Inv st -> cycles st !! i = Some c -> c_interval c = Some due ->
  Inv (frameInterval_callback i due frame st).
Proof.
  intros HI Hi Hint. assert (Hci := proj2 HI _ _ Hi).
  assert (Hpc : exists d, c_pc c = AtTimeout d).
  { destruct Hci as (Hok & _). unfold cycle_ok in Hok.
    destruct (c_pc c); eauto; intuition congruence. }
  destruct Hpc as [d Hpc].
  unfold_handlers. destruct (videoRef_current st), frame; unfold Inv; cbn;
    rewrite ?length_alter.
  all: split; [apply HI|]; intros j c' Hj; repeat inv_alter Hj; try congruence;
    try (apply HI; exact Hj); rewrite Hi in Hj; injection Hj as <-; cyc_tac.
Qed.

(** [stopMediaTracks] releases every stream and every frame interval,
    since the two cells point at the only ones that can be live. *)
Lemma Inv_refs_ok st : Inv st -> refs_ok st.
Proof. intros [_ H] j c Hj. destruct (H j c Hj) as (_ & _ & H1 & H2 & _). auto. Qed.

Lemma set_c_stream_id c : c_stream c = false -> set_c_stream false c = c.
Proof. destruct c; cbn; intros ->; reflexivity. Qed.

Lemma set_c_interval_id c : c_interval c = None -> set_c_interval None c = c.
Proof. destruct c; cbn; intros ->; reflexivity. Qed.

Lemma stopMediaTracks_cycles st :
  refs_ok st -> cycles (stopMediaTracks st) = release <$> cycles st.
Proof.
  intros H. apply list_eq. intros j. rewrite list_lookup_fmap.
  unfold stopMediaTracks, upd_cycle, release.
  destruct (cycles st !! j) as [c|] eqn:Hj; cbn.
  - destruct (H j c Hj) as [H1 H2].
    destruct (streamRef st) as [s|] eqn:Hs; cbn;
      destruct (frameIntervalRef st) as [k|] eqn:Hk; cbn;
      rewrite ?list_lookup_alter, ?Hj; repeat case_decide; subst; cbn;
      rewrite ?Hj; cbn; f_equal.
    all: repeat match goal with
           | |- context [set_c_stream false ?x] =>
               rewrite (set_c_stream_id x)
                 by (destruct (c_stream x) eqn:E; [|reflexivity];
                     cbn in *; intuition congruence)
           | |- context [set_c_interval None ?x] =>
               rewrite (set_c_interval_id x)
                 by (destruct (c_interval x) eqn:E; [|reflexivity];
                     cbn in *; exfalso;
                     assert (Some z <> None) by discriminate; intuition congruence)
           end; try reflexivity.
  - destruct (streamRef st) as [s|] eqn:Hs; cbn;
      destruct (frameIntervalRef st) as [k|] eqn:Hk; cbn;
      rewrite ?list_lookup_alter, ?Hj; repeat case_decide; subst; cbn;
      rewrite ?Hj; reflexivity.
Qed.

Lemma stopMediaTracks_fields st :
  let st' := stopMediaTracks st in
  streamRef st' = None /\ frameIntervalRef st' = None
  /\ status st' = status st /\ apiKey st' = apiKey st
  /\ isApiKeyModalOpen st' = isApiKeyModalOpen st
  /\ history st' = history st /\ latestResult st' = latestResult st
  /\ error st' = error st /\ localStorage st' = localStorage st
  /\ subject st' = subject st /\ recordMode st' = recordMode st
  /\ mediaRecorderRef st' = mediaRecorderRef st
  /\ audioChunksRef st' = audioChunksRef st
  /\ calls st' = calls st /\ now st' = now st.
Proof.
  unfold stopMediaTracks, upd_cycle.
  destruct (streamRef st) eqn:Hs; cbn;
    destruct (frameIntervalRef st) eqn:Hk; cbn; rewrite ?Hs, ?Hk; tauto.
Qed.

Lemma dead_release c : dead c -> dead (release c).
Proof. intros H. unfold release. now apply dead_interval, dead_stream. Qed.

Lemma Inv_all_dead st :
  (forall j c, cycles st !! j = Some c -> dead c) ->
  (apiKey st = "" -> isApiKeyModalOpen st = true /\ status st = idle) ->
  Inv st.
Proof. intros Hd Hk. split; [exact Hk|]. intros j c Hj. apply dead_inv. eauto. Qed.

Lemma lookup_release_inv (l : list Cycle) j c' :
  (release <$> l) !! j = Some c' -> exists c, l !! j = Some c /\ c' = release c.
Proof.
  rewrite list_lookup_fmap. destruct (l !! j) as [c|]; [|discriminate].
  cbn. intros [= <-]. eauto.
Qed.

Lemma refs_ok_stop st r : refs_ok st -> refs_ok (upd_cycle r MediaRecorder_stop st).
Proof.
  intros H j c' Hj. unfold upd_cycle in *. cbn in *. inv_alter Hj.
  - specialize (H _ _ Hj). unfold MediaRecorder_stop.
    destruct (c_recorder c); cbn; exact H.
  - exact (H _ _ Hj).
Qed.

Lemma Inv_timeout st i c due :
  Inv st -> cycles st !! i = Some c -> c_pc c = AtTimeout due ->
  Inv (timeout_callback i c st).
Proof.
  intros HI Hi Hpc. active HI Hi Hpc.
  unfold timeout_callback.
  set (st1 := match mediaRecorderRef st with
              | Some r => upd_cycle r MediaRecorder_stop st
              | None => st
              end).
  assert (H1 : refs_ok st1).
  { subst st1. destruct (mediaRecorderRef st);
      [apply refs_ok_stop|]; now apply Inv_refs_ok. }
  assert (Hsc : status st1 = status st /\ apiKey st1 = apiKey st
                /\ isApiKeyModalOpen st1 = isApiKeyModalOpen st
                /\ length (cycles st1) = length (cycles st)).
  { subst st1. destruct (mediaRecorderRef st); cbn; rewrite ?length_alter; tauto. }
  destruct Hsc as (E1 & E2 & E3 & E4).
  pose proof (stopMediaTracks_fields st1) as F. cbn zeta in F.
  destruct F as (F1 & F2 & F3 & F4 & F5 & _).
  pose proof (stopMediaTracks_cycles st1 H1) as Hcy.
  unfold call, upd_cycle, Inv. cbn. rewrite F1, F2, F4, F5, Hcy, E2, E3.
  rewrite length_alter, length_fmap, E4.
  split; [intros; contradiction|]. intros j c' Hj.
  inv_alter Hj; apply lookup_release_inv in Hj as (c1 & Hj & ->).
  - assert (Hc1 : c1 = c \/ c1 = MediaRecorder_stop c).
    { subst st1. destruct (mediaRecorderRef st); cbn in Hj;
        [inv_alter Hj|]; rewrite Hi in Hj; injection Hj as <-; auto. }
    destruct Hc1 as [->| ->]; [|unfold MediaRecorder_stop; destruct (c_recorder c)];
      cyc_tac.
  - assert (Hc1 : exists c0, cycles st !! j = Some c0
                             /\ (c1 = c0 \/ c1 = MediaRecorder_stop c0)).
    { subst st1. destruct (mediaRecorderRef st); cbn in Hj;
        [inv_alter Hj|]; eauto. }
    destruct Hc1 as (c0 & Hj0 & Hc1).
    assert (dead c0) by (eapply (inv_others _ _ _ j c0 HI Hi); congruence).
    destruct Hc1 as [->| ->]; dead_tac; apply dead_release; auto using dead_stop.
Qed.

Lemma handleApiError_fields err st :
  apiKey st <> "" ->
  let st' := handleApiError err st in
  status st' = idle /\ cycles st' = cycles st
  /\ streamRef st' = streamRef st /\ frameIntervalRef st' = frameIntervalRef st
  /\ (apiKey st' = "" -> isApiKeyModalOpen st' = true)
  /\ (apiKey st' = apiKey st \/ apiKey st' = "").
Proof.
  intros Hk. unfold handleApiError. destruct (credentialInvalid err); cbn; intuition auto.
Qed.

(** The end of a cycle: after the body's last statements every cycle has
    returned, whatever it reported. *)
Lemma Inv_finished (react : Handler) st i c :
  Inv st -> cycles st !! i = Some c -> c_pc c <> Returned ->
  c_stream c = false -> c_interval c = None ->
  (c_recordMode c = audio -> c_recorder c = no_recorder \/ c_recorder c = rec_inactive) ->
  cycles (react st) = cycles st ->
  (apiKey (react st) = "" ->
   isApiKeyModalOpen (react st) = true /\ status (react st) = idle) ->
  Inv (upd_cycle i (set_c_pc Returned) (react st)).
Proof.
  intros HI Hi Hpc Hs Hint Hrec Hcy Hk. apply Inv_all_dead; [|exact Hk].
  unfold upd_cycle. cbn. rewrite Hcy. intros j c' Hj. inv_alter Hj.
  - rewrite Hi in Hj. injection Hj as <-. split; [reflexivity|].
    unfold cycle_ok. cbn. auto.
  - eapply (inv_others _ _ _ _ _ HI Hi Hpc); eauto.
Qed.

Lemma Inv_video_settled st i c o :
  Inv st -> cycles st !! i = Some c -> c_pc c = AtAnalyzeVideoFrames ->
  Inv (timeout_video_settled i c o st).
Proof.
  intros HI Hi Hpc. active HI Hi Hpc. unfold timeout_video_settled.
  destruct o as [videoResult|err].
  - unfold_handlers. unfold Inv. cbn. rewrite length_alter.
    split; [intros; contradiction|].
    intros j c' Hj; repeat inv_alter Hj; try congruence; other HI Hi Hpc. cyc_tac.
  - destruct (handleApiError_fields err st Hkey) as (F1 & F2 & F3 & F4 & F5 & F6).
    destruct Hci as (Hok & _). unfold cycle_ok in Hok. rewrite Hpc in Hok.
    apply (Inv_finished (handleApiError err) st i c); try tauto; try congruence;
      intros Hc; rewrite Hc in Hok; discriminate (proj1 Hok).
Qed.

Lemma Inv_timeout_audio_settled st i c videoResult o dateNow newDate :
  Inv st -> cycles st !! i = Some c -> c_pc c = AtTranslateAudioV videoResult ->
  Inv (timeout_audio_settled i c videoResult o dateNow newDate st).
Proof.
  intros HI Hi Hpc. active HI Hi Hpc. unfold timeout_audio_settled.
  destruct Hci as (Hok & _). unfold cycle_ok in Hok. rewrite Hpc in Hok.
  destruct o as [audioResult|err].
  - apply (Inv_finished (showRecord _) st i c); try tauto; try congruence;
      try (cbn; intros; contradiction);
      intros Hc; rewrite Hc in Hok; discriminate (proj1 Hok).
  - destruct (handleApiError_fields err st Hkey) as (F1 & F2 & F3 & F4 & F5 & F6).
    apply (Inv_finished (handleApiError err) st i c); try tauto; try congruence;
      intros Hc; rewrite Hc in Hok; discriminate (proj1 Hok).
Qed.

Lemma Inv_onstop_settled st i c o dateNow newDate :
  Inv st -> cycles st !! i = Some c -> c_pc c = AtTranslateAudio ->
  Inv (onstop_settled i c o dateNow newDate st).
Proof.
  intros HI Hi Hpc. active HI Hi Hpc. unfold onstop_settled.
  destruct Hci as (Hok & _). unfold cycle_ok in Hok. rewrite Hpc in Hok.
  set (react := match o with
                | Fulfilled res => showRecord (newRecord dateNow newDate (c_subject c) res)
                | Rejected err => handleApiError err
                end).
  assert (Hr : cycles (react st) = cycles st
               /\ streamRef (react st) = streamRef st
               /\ frameIntervalRef (react st) = frameIntervalRef st
               /\ (apiKey (react st) = "" ->
                   isApiKeyModalOpen (react st) = true /\ status (react st) = idle)).
  { subst react. destruct o as [res|err].
    - cbn. repeat split; auto; contradiction.
    - destruct (handleApiError_fields err st Hkey) as (F1 & F2 & F3 & F4 & F5 & F6). tauto. }
  destruct Hr as (R1 & R2 & R3 & R4).
  assert (Hrefs : refs_ok (react st)).
  { intros j cj Hj. rewrite R1 in Hj. rewrite R2, R3. now apply Inv_refs_ok. }
  pose proof (stopMediaTracks_fields (react st)) as F. cbn zeta in F.
  destruct F as (F1 & F2 & F3 & F4 & F5 & _).
  apply Inv_all_dead.
  - unfold upd_cycle. cbn. rewrite (stopMediaTracks_cycles _ Hrefs), R1.
    intros j c' Hj. inv_alter Hj; apply lookup_release_inv in Hj as (c1 & Hj & ->).
    + rewrite Hi in Hj. injection Hj as <-. split; [reflexivity|].
      unfold cycle_ok. cbn. intuition auto.
    + apply dead_release.
      eapply (inv_others _ _ _ _ _ HI Hi); eauto; congruence.
  - unfold upd_cycle. cbn. rewrite F3, F4, F5. exact R4.
Qed.

Lemma Inv_step e st st' : Inv st -> step e st = Some st' -> Inv st'.
Proof.
  intros HI Hstep. destruct e; cbn in Hstep.
  - injection Hstep as <-. apply (Inv_frame st); cbn; auto.
  - destruct (isApiKeyModalOpen st && Js.truthy (apiKey st)) eqn:E; [|discriminate].
    injection Hstep as <-. apply andb_true_iff in E as [_ E].
    apply truthy_spec in E.
    apply (Inv_frame st); cbn; auto; intros; contradiction.
  - destruct (isApiKeyModalOpen st) eqn:E; [|discriminate].
    injection Hstep as <-. unfold ApiKeyModal_handleSave.
    destruct (Js.truthy (Js.trim key)) eqn:Ht; [|exact HI].
    apply truthy_spec in Ht.
    apply (Inv_frame st); cbn; auto; intros; contradiction.
  - injection Hstep as <-. apply (Inv_frame st); cbn; auto; apply HI.
  - injection Hstep as <-. apply (Inv_frame st); cbn; auto; apply HI.
  - injection Hstep as <-. now apply Inv_click.
  - destruct (cycles st !! i) as [c|] eqn:Hi; [|discriminate].
    destruct (c_pc c) eqn:Hpc; try discriminate.
    injection Hstep as <-. destruct granted.
    + now apply Inv_acquired.
    + eapply Inv_catch; eauto.
  - destruct (cycles st !! i) as [c|] eqn:Hi; [|discriminate].
    destruct (c_recorder c) eqn:Hrec; try discriminate.
    injection Hstep as <-. now apply Inv_stop_task.
  - destruct (cycles st !! i) as [c|] eqn:Hi; [|discriminate].
    destruct (c_interval c) as [due|] eqn:Hint; [|discriminate].
    destruct (due <=? now st); [|discriminate].
    injection Hstep as <-. eapply Inv_interval; eauto.
  - destruct (cycles st !! i) as [c|] eqn:Hi; [|discriminate].
    destruct (c_pc c) eqn:Hpc; try discriminate.
    destruct (due <=? now st); [|discriminate].
    injection Hstep as <-. eapply Inv_timeout; eauto.
  - destruct (cycles st !! i) as [c|] eqn:Hi; [|discriminate].
    destruct (c_pc c) eqn:Hpc; try discriminate.
    injection Hstep as <-. now apply Inv_video_settled.
  - destruct (cycles st !! i) as [c|] eqn:Hi; [|discriminate].
    destruct (c_pc c) eqn:Hpc; try discriminate; injection Hstep as <-.
    + now apply Inv_onstop_settled.
    + now apply Inv_timeout_audio_settled.
  - destruct ((0 <=? dt) && forallb (timers_after (now st + dt)) (cycles st));
      [|discriminate].
    injection Hstep as <-. apply (Inv_frame st); cbn; auto; apply HI.
Qed.

Lemma Inv_run es : forall st st', Inv st -> run es st = Some st' -> Inv st'.
Proof.
  induction es as [|e es IH]; intros st st' HI Hrun; cbn in Hrun.
  - now injection Hrun as <-.
  - destruct (step e st) as [st1|] eqn:Hs; [|discriminate].
    eapply IH; [|exact Hrun]. eapply Inv_step; eauto.
Qed.

Lemma Inv_mounted stored t0 : Inv (mounted stored t0).
Proof.
  unfold mounted, useEffect_mount, initialState. cbn.
  destruct stored as [k|]; [destruct (Js.truthy k) eqn:E|]; cbn.
  - apply truthy_spec in E. split; cbn; [intros; contradiction|].
    intros j c Hj. destruct j; discriminate.
  - split; cbn; [auto|]. intros j c Hj. destruct j; discriminate.
  - split; cbn; [auto|]. intros j c Hj. destruct j; discriminate.
Qed.

Lemma reachable_Inv st : reachable st -> Inv st.
Proof. intros (stored & t0 & es & H). eapply Inv_run; [apply Inv_mounted|exact H]. Qed.

(** ** The Result Store *)

Ltac case_all :=
  repeat (cbn;
          match goal with
          | |- context [match ?x with _ => _ end] => destruct x eqn:?
          end); cbn.

(** Every event but the successful end of an analysis leaves the history
    alone; that one puts the new record in front. *)
Lemma step_history e st st' :
  step e st = Some st' ->
  history st' = history st
  \/ exists i res dateNow newDate c,
       e = TranslateAudioSettled i (Fulfilled res) dateNow newDate
       /\ cycles st !! i = Some c
       /\ ((c_pc c = AtTranslateAudio
            /\ history st' = newRecord dateNow newDate (c_subject c) res :: history st)
           \/ exists videoResult,
               c_pc c = AtTranslateAudioV videoResult
               /\ history st'
                  = newRecord dateNow newDate (c_subject c)
                      (combinedResult videoResult res) :: history st).
Proof.
  intros Hstep. destruct e; cbn in Hstep;
    repeat match type of Hstep with
           | context [match cycles st !! ?i with _ => _ end] =>
               destruct (cycles st !! i) as [c|] eqn:Hi; [|discriminate]
           | context [match c_pc ?c with _ => _ end] =>
               destruct (c_pc c) eqn:Hpc; try discriminate
           | context [match c_recorder ?c with _ => _ end] =>
               destruct (c_recorder c) eqn:Hrec; try discriminate
           | context [match c_interval ?c with _ => _ end] =>
               destruct (c_interval c) eqn:Hint; try discriminate
           | context [if ?b then _ else _] => destruct b eqn:?; try discriminate
           end;
    try (injection Hstep as <-).
  all: try (left; unfold_handlers; case_all; reflexivity).
  all: destruct o as [res|err];
    [ right; exists i, res, dateNow, newDate, c; repeat split; auto;
      first [ left; split; [assumption|] | right; eexists; split; [eassumption|] ];
      unfold_handlers; case_all; reflexivity
    | left; unfold_handlers; case_all; reflexivity ].
Qed.

Lemma cons_neq {A} (x : A) (l : list A) : x :: l <> l.
Proof. intros E. apply (f_equal length) in E. cbn in E. lia. Qed.

Lemma run_history es :
  forall st st', run es st = Some st' ->
                 exists newer, history st' = (newer ++ history st)%list.
Proof.
  induction es as [|e es IH]; intros st st' Hrun; cbn in Hrun.
  - injection Hrun as <-. now exists [].
  - destruct (step e st) as [st1|] eqn:Hs; [|discriminate].
    destruct (IH _ _ Hrun) as [newer Hn].
    destruct (step_history _ _ _ Hs) as [E|(i & res & d & n & c & _ & _ & E)].
    + exists newer. now rewrite Hn, E.
    + destruct E as [[_ E]|(v & _ & E)]; rewrite Hn, E;
        eexists (newer ++ [_])%list; now rewrite <- app_assoc.
Qed.

(** C9: the Result Store only grows at its head.  Every event leaves
    [history] as it was or puts exactly one new record in front of it; so
    after any run the earlier history is still there, in its order, as
    the tail of the later one. *)
Theorem history_append_only :
  (forall e st st', step e st = Some st' ->
     history st' = history st \/ exists r, history st' = r :: history st)
  /\ (forall es st st', run es st = Some st' ->
        exists newer, history st' = (newer ++ history st)%list).
Proof.
  split.
  - intros e st st' Hs.
    destruct (step_history _ _ _ Hs) as [E|(i & res & d & n & c & _ & _ & E)]; [now left|].
    right. destruct E as [[_ E]|(v & _ & E)]; eauto.
  - intros es. apply run_history.
Qed.

Lemma credentialInvalid_spec err :
  credentialInvalid err = true <-> credential_indicator err.
Proof.
  unfold credential_indicator. destruct err as [msg|]; cbn.
  - rewrite orb_true_iff, !includes_spec. split.
    + intros H. exists msg. auto.
    + intros (m & [= <-] & H). exact H.
  - split; [discriminate|]. intros (m & E & _). discriminate.
Qed.

Lemma handleApiError_spec err st :
  let st' := handleApiError err st in
  status st' = idle
  /\ (credential_indicator err ->
      localStorage st' = None /\ apiKey st' = "" /\ isApiKeyModalOpen st' = true
      /\ error st' = Some msg_key_invalid)
  /\ (~ credential_indicator err ->
      localStorage st' = localStorage st /\ apiKey st' = apiKey st
      /\ isApiKeyModalOpen st' = isApiKeyModalOpen st
      /\ error st' = Some msg_analysis_failed).
Proof.
  cbn zeta. rewrite <- credentialInvalid_spec. unfold handleApiError.
  destruct (credentialInvalid err); cbn; repeat split; auto; congruence.
Qed.

(** C3: an analysis call fails.  If the error carries one of the two
    invalid-credential indicators in its message, the stored credential is
    removed, the credential in memory is emptied and the modal is opened;
    otherwise storage, credential and modal stay as they are and the generic
    message is shown.  The status is idle afterwards in both cases. *)
Theorem analysis_failure_handling e err st st' :
  step e st = Some st' ->
  analysis_failure e = Some err ->
  status st' = idle
  /\ (credential_indicator err ->
      localStorage st' = None /\ apiKey st' = "" /\ isApiKeyModalOpen st' = true
      /\ error st' = Some msg_key_invalid)
  /\ (~ credential_indicator err ->
      localStorage st' = localStorage st /\ apiKey st' = apiKey st
      /\ isApiKeyModalOpen st' = isApiKeyModalOpen st
      /\ error st' = Some msg_analysis_failed).
Proof.
  intros Hstep Hf.
  pose proof (handleApiError_spec err st) as H. cbn zeta in H.
  pose proof (stopMediaTracks_fields (handleApiError err st)) as F. cbn zeta in F.
  destruct e; try discriminate; destruct o as [res|err0]; try discriminate;
    injection Hf as ->; cbn in Hstep;
    destruct (cycles st !! i) as [c|] eqn:Hi; try discriminate;
    destruct (c_pc c) eqn:Hpc; try discriminate; injection Hstep as <-.
  - unfold timeout_video_settled, upd_cycle. cbn. exact H.
  - unfold onstop_settled, upd_cycle. cbn.
    destruct F as (_ & _ & F3 & F4 & F5 & _ & _ & F8 & F9 & _).
    rewrite F3, F4, F5, F8, F9. exact H.
  - unfold timeout_audio_settled, upd_cycle. cbn. exact H.
Qed.

Lemma lookup_returned (i : nat) (l : list Cycle) :
  (i < length l)%nat ->
  exists c', alter (set_c_pc Returned) i l !! i = Some c' /\ c_pc c' = Returned.
Proof.
  intros Hi. apply lookup_lt_is_Some_2 in Hi as [c Hc].
  exists (set_c_pc Returned c). rewrite list_lookup_alter_eq, Hc. auto.
Qed.

(** C2: an analysis that succeeds ends its recording cycle, in audio and
    in video mode, and the end of the cycle creates one record: it is put
    in front of the history, which grows by exactly that record, it becomes
    the latest result, the status becomes result, and the cycle has
    returned, so that it creates no further record. *)
Theorem completed_cycle_appends_one_record i res dateNow newDate st st' :
  step (TranslateAudioSettled i (Fulfilled res) dateNow newDate) st = Some st' ->
  exists r c,
    cycles st !! i = Some c
    /\ (r = newRecord dateNow newDate (c_subject c) res
        \/ exists videoResult,
             r = newRecord dateNow newDate (c_subject c) (combinedResult videoResult res))
    /\ history st' = r :: history st
    /\ head (history st') = Some r
    /\ length (history st') = S (length (history st))
    /\ latestResult st' = Some r
    /\ status st' = result
    /\ exists c', cycles st' !! i = Some c' /\ c_pc c' = Returned.
Proof.
  intros Hstep. cbn in Hstep.
  destruct (cycles st !! i) as [c|] eqn:Hi; [|discriminate].
  assert (Hlt : (i < length (cycles st))%nat) by (eapply lookup_lt_Some; eauto).
  destruct (c_pc c) eqn:Hpc; try discriminate; injection Hstep as <-.
  - exists (newRecord dateNow newDate (c_subject c) res), c.
    pose proof (stopMediaTracks_fields
                  (showRecord (newRecord dateNow newDate (c_subject c) res) st)) as F.
    cbn zeta in F. destruct F as (_ & _ & F3 & _ & _ & F6 & F7 & _).
    unfold onstop_settled, upd_cycle. cbn. rewrite F3, F6, F7. cbn.
    repeat split; auto.
    apply lookup_returned. unfold stopMediaTracks, upd_cycle.
    case_refs; rewrite ?length_alter; exact Hlt.
  - exists (newRecord dateNow newDate (c_subject c) (combinedResult videoResult res)), c.
    unfold timeout_audio_settled, upd_cycle. cbn.
    repeat split; eauto. now apply lookup_returned.
Qed.

(** C10: a record enters the history only at the successful end of an
    analysis, and its identifier is the decimal text of the [Date.now()]
    read there.  Two identifiers are equal exactly when the two readings
    are; a run in which two cycles end at the same reading leaves two
    different records with one identifier in the history. *)
Theorem record_id_is_creation_time :
  (forall e st st' r,
     step e st = Some st' -> history st' = r :: history st ->
     exists i res dateNow newDate,
       e = TranslateAudioSettled i (Fulfilled res) dateNow newDate
       /\ CryRecord.id r = Js.toString dateNow)
  /\ (forall t1 t2, Js.toString t1 = Js.toString t2 <-> t1 = t2)
  /\ (exists st r1 r2 older,
        reachable st /\ history st = r1 :: r2 :: older
        /\ CryRecord.id r1 = CryRecord.id r2 /\ r1 <> r2).
Proof.
  split; [|split].
  - intros e st st' r Hs Hh.
    destruct (step_history _ _ _ Hs) as [E|(i & res & d & n & c & -> & _ & E)].
    + rewrite E in Hh. symmetry in Hh. now apply cons_neq in Hh.
    + exists i, res, d, n. split; [reflexivity|].
      destruct E as [[_ E]|(v & _ & E)]; rewrite E in Hh; injection Hh as <- ; reflexivity.
  - intros t1 t2. split; [apply toString_inj|now intros ->].
  - set (a := TranslationResult.mk "Hungry" 0.5%float "Feed" None).
    set (b := TranslationResult.mk "Tired" 0.5%float "Rest" None).
    set (es := [ClickRecord; GetUserMediaSettled 0 true; ClickRecord;
                RecorderStopTask 0 "a"; TranslateAudioSettled 0 (Fulfilled a) 1700000000000 1700000000000;
                ClickRecord; GetUserMediaSettled 1 true; ClickRecord;
                RecorderStopTask 1 "b"; TranslateAudioSettled 1 (Fulfilled b) 1700000000000 1700000000000]).
    destruct (run es (mounted (Some "key") 0)) as [st|] eqn:Hrun; [|vm_compute in Hrun; discriminate].
    exists st, (newRecord 1700000000000 1700000000000 Baby b),
      (newRecord 1700000000000 1700000000000 Baby a), [].
    split; [exists (Some "key"), 0, es; exact Hrun|].
    vm_compute in Hrun. injection Hrun as <-. cbn.
    split; [reflexivity|]. split; [reflexivity|].
    intros E. apply (f_equal CryRecord.cryType) in E. discriminate.
Qed.

(** ** The credential gate *)

(** C8: while no credential is present the record button is disabled, a
    click on it changes nothing, and the credential modal is open.  Saving
    any non-empty value stores it, keeps it in memory and closes the modal;
    the button is enabled again and the same click now starts a recording.
    The save button of the modal does this with the trimmed input. *)
Theorem credential_gate st :
  reachable st -> apiKey st = "" ->
  recordButton_disabled st = true
  /\ step ClickRecord st = Some st
  /\ isApiKeyModalOpen st = true
  /\ (forall key, Js.trim key <> "" ->
        step (ModalSave key) st = Some (handleSaveApiKey (Js.trim key) st))
  /\ forall value, value <> "" ->
       let st1 := handleSaveApiKey value st in
       localStorage st1 = Some value
       /\ apiKey st1 = value
       /\ isApiKeyModalOpen st1 = false
       /\ recordButton_disabled st1 = false
       /\ exists st2,
            step ClickRecord st1 = Some st2
            /\ status st2 = recording
            /\ exists c, last (cycles st2) = Some c
                         /\ c_pc c = AtGetUserMedia /\ c_apiKey c = value.
Proof.
  intros Hr Hk. apply reachable_Inv in Hr. destruct Hr as [HK _].
  destruct (HK Hk) as [Hopen Hidle].
  assert (Hdis : recordButton_disabled st = true).
  { unfold recordButton_disabled. now rewrite Hidle, Hk. }
  repeat split; auto.
  - cbn. unfold recordButton_onClick. now rewrite Hdis.
  - intros key Hkey. cbn. rewrite Hopen. unfold ApiKeyModal_handleSave.
    apply truthy_spec in Hkey. now rewrite Hkey.
  - cbn. unfold recordButton_disabled. cbn. rewrite Hidle.
    apply negb_false_iff, truthy_spec. assumption.
  - assert (E : recordButton_disabled (handleSaveApiKey value st) = false).
    { unfold recordButton_disabled. cbn. rewrite Hidle.
      apply negb_false_iff, truthy_spec. assumption. }
    eexists. split; [cbn; unfold recordButton_onClick; rewrite E; cbn;
                     rewrite Hidle; reflexivity|].
    split; [reflexivity|]. cbn. rewrite last_snoc. eauto.
Qed.

(** ** Failure to start the capture *)

Lemma alter_snoc {A} (f : A -> A) (l : list A) (x : A) :
  alter f (length l) (l ++ [x])%list = (l ++ [f x])%list.
Proof.
  rewrite alter_app_r_alt by lia. now rewrite Nat.sub_diag.
Qed.

Lemma existsb_snoc {A} (p : A -> bool) (l : list A) (x : A) :
  p x = false -> existsb p (l ++ [x])%list = existsb p l.
Proof. intros H. rewrite existsb_app. cbn. rewrite H. now rewrite !orb_false_r. Qed.

(** C5, amended: when [getUserMedia] rejects, the message that capture
    could not be started is shown and the status is idle again.
    [startRecording] has cleared the latest result before asking for the
    device; everything else is as before the click: history, credential,
    storage, subject, mode, modal, the four cells, the requests issued.  The
    call has returned and owns no stream, no recorder, no frame and no
    timer. *)
Theorem capture_unavailable st :
  recordButton_disabled st = false -> status st <> recording ->
  exists st1 st2,
    step ClickRecord st = Some st1
    /\ step (GetUserMediaSettled (length (cycles st)) false) st1 = Some st2
    /\ error st2 = Some msg_cannot_start
    /\ status st2 = idle
    /\ latestResult st2 = None
    /\ history st2 = history st
    /\ subject st2 = subject st /\ recordMode st2 = recordMode st
    /\ apiKey st2 = apiKey st /\ localStorage st2 = localStorage st
    /\ isApiKeyModalOpen st2 = isApiKeyModalOpen st
    /\ mediaRecorderRef st2 = mediaRecorderRef st
    /\ audioChunksRef st2 = audioChunksRef st
    /\ streamRef st2 = streamRef st /\ frameIntervalRef st2 = frameIntervalRef st
    /\ calls st2 = calls st
    /\ cycles st2
       = (cycles st ++
          [{| c_recordMode := recordMode st; c_subject := subject st;
              c_apiKey := apiKey st; c_pc := Returned; c_stream := false;
              c_recorder := no_recorder; c_frames := []; c_interval := None |}])%list
    /\ device_held st2 = device_held st.
Proof.
  intros Hd Hs.
  assert (E : recordButton_onClick st = startRecording st).
  { unfold recordButton_onClick. rewrite Hd. destruct (status st); congruence. }
  exists (startRecording st), (startRecording_catch (length (cycles st)) (startRecording st)).
  split; [cbn; now rewrite E|].
  split.
  { cbn. rewrite lookup_app_r, Nat.sub_diag by lia. reflexivity. }
  unfold startRecording_catch, startRecording, upd_cycle. cbn.
  rewrite alter_snoc. cbn. repeat split; auto.
  unfold device_held. cbn. now apply existsb_snoc.
Qed.

(** ** Release of the capture device *)

Lemma existsb_false_lookup {A} (p : A -> bool) (l : list A) :
  (forall j x, l !! j = Some x -> p x = false) -> existsb p l = false.
Proof.
  induction l as [|a l IH]; intros H; cbn; [reflexivity|].
  rewrite (H 0%nat a eq_refl), IH; [reflexivity|].
  intros j x Hj. exact (H (S j) x Hj).
Qed.


(** Idle and result: nothing is in progress and nothing is held. *)
Lemma quiet_released st :
  Inv st -> status st = idle \/ status st = result ->
  device_held st = false /\ interval_scheduled st = false
  /\ timeout_scheduled st = false /\ call_in_flight st = false.
Proof.
  intros HI Hs.
  assert (H : forall j c, cycles st !! j = Some c -> dead c)
    by (intros; eapply inv_quiet; eauto).
  repeat split; apply existsb_false_lookup; intros j c Hj;
    destruct (H j c Hj) as [Hpc Hok]; unfold cycle_ok in Hok; rewrite Hpc in Hok.
  - tauto.
  - destruct Hok as (_ & -> & _). reflexivity.
  - now rewrite Hpc.
  - now rewrite Hpc.
Qed.



(** ** The two timers of a video cycle *)

Lemma pc_at_alter_same (f : Cycle -> Cycle) i j l p :
  (forall x, c_pc (f x) = c_pc x) -> pc_at i l p -> pc_at i (alter f j l) p.
Proof.
  intros Hf (c & Hi & Hp). destruct (decide (j = i)) as [->|Hne].
  - exists (f c). rewrite list_lookup_alter_eq, Hi. cbn. now rewrite Hf.
  - exists c. now rewrite list_lookup_alter_ne.
Qed.

Lemma pc_at_alter_ne (f : Cycle -> Cycle) i j l p :
  i <> j -> pc_at i l p -> pc_at i (alter f j l) p.
Proof.
  intros Hne (c & Hi & Hp). exists c. rewrite list_lookup_alter_ne; auto.
Qed.

Lemma pc_at_app i l l' p : pc_at i l p -> pc_at i (l ++ l')%list p.
Proof. intros (c & Hi & Hp). exists c. split; [now apply lookup_app_l_Some|exact Hp]. Qed.

Lemma pc_stop x : c_pc (MediaRecorder_stop x) = c_pc x.
Proof. unfold MediaRecorder_stop. now destruct (c_recorder x). Qed.

Ltac pc_tac :=
  repeat first
    [ assumption
    | apply pc_at_app
    | apply pc_at_alter_ne; [assumption|]
    | apply pc_at_alter_same; [first [exact pc_stop | reflexivity]|] ].

(** Nothing but its own firing takes a scheduled budget timer away. *)
Lemma timeout_stays e st st' i due :
  Inv st -> step e st = Some st' ->
  pc_at i (cycles st) (AtTimeout due) -> e <> TimeoutFires i ->
  pc_at i (cycles st') (AtTimeout due).
Proof.
  intros HI Hstep Hat Hne. pose proof Hat as (c & Hi & Hpc).
  assert (Hvideo : c_recordMode c = video).
  { destruct (proj2 HI _ _ Hi) as (Hok & _). unfold cycle_ok in Hok.
    now rewrite Hpc in Hok. }
  assert (Hst : status st = recording \/ status st = processing).
  { destruct (proj2 HI _ _ Hi) as (_ & Hs & _). unfold status_ok in Hs.
    now rewrite Hpc in Hs. }
  destruct e; cbn in Hstep;
    repeat match type of Hstep with
           | context [match cycles st !! ?i with _ => _ end] =>
               destruct (cycles st !! i) as [c0|] eqn:Hi0; [|discriminate]
           | context [match c_pc ?c with _ => _ end] =>
               destruct (c_pc c) eqn:Hpc0; try discriminate
           | context [match c_recorder ?c with _ => _ end] =>
               destruct (c_recorder c) eqn:Hrec; try discriminate
           | context [match c_interval ?c with _ => _ end] =>
               destruct (c_interval c) eqn:Hint; try discriminate
           | context [if ?b then _ else _] => destruct b eqn:?; try discriminate
           end;
    try (injection Hstep as <-).
  all: try (assert (i <> i0) by (intros ->; congruence)).
  all: try solve [unfold_handlers; case_all; pc_tac].
Qed.


(** ** The combined analysis of video mode *)

Lemma stopMediaTracks_calls st : calls (stopMediaTracks st) = calls st.
Proof. apply stopMediaTracks_fields. Qed.


(** C1: when the budget timer fires, the frames go to [analyzeVideoFrames]
    first; only when that call has succeeded is the audio sent to
    [translateAudio]; a failure of the first call issues no second one.  The
    record made from the two results has the audio label, the video
    behaviour, as its advice the video advice followed (after the space of
    the template) by the audio advice, and as its confidence the mean
    (audio + video) / 2 in double precision, which for 0.70 and 0.90 is
    0.80. *)
Theorem combined_analysis :
  (forall i st st',
     step (TimeoutFires i) st = Some st' ->
     exists c, cycles st !! i = Some c
               /\ calls st'
                  = (calls st
                     ++ [analyzeVideoFrames (c_frames c) (c_subject c) (c_apiKey c)])%list)
  /\ (forall i videoResult st st',
        step (AnalyzeVideoFramesSettled i (Fulfilled videoResult)) st = Some st' ->
        exists c,
          cycles st !! i = Some c
          /\ calls st'
             = (calls st
                ++ [translateAudio (Blob (audioChunksRef st)) (c_subject c) (c_apiKey c)])%list
          /\ pc_at i (cycles st') (AtTranslateAudioV videoResult))
  /\ (forall i err st st',
        step (AnalyzeVideoFramesSettled i (Rejected err)) st = Some st' ->
        calls st' = calls st /\ history st' = history st)
  /\ (forall i videoResult audioResult dateNow newDate st st',
        pc_at i (cycles st) (AtTranslateAudioV videoResult) ->
        step (TranslateAudioSettled i (Fulfilled audioResult) dateNow newDate) st
        = Some st' ->
        exists r,
          latestResult st' = Some r /\ history st' = r :: history st
          /\ calls st' = calls st
          /\ CryRecord.cryType r = TranslationResult.cryType audioResult
          /\ CryRecord.confidence r
             = ((TranslationResult.confidence audioResult
                 + TranslationResult.confidence videoResult) / 2)%float
          /\ CryRecord.suggestion r
             = TranslationResult.suggestion videoResult ++ " "
               ++ TranslationResult.suggestion audioResult
          /\ CryRecord.behavior r = TranslationResult.behavior videoResult)
  /\ ((0.7 + 0.9) / 2 = 0.8)%float.
Proof.
  split; [|split; [|split; [|split]]].
  - intros i st st' Hstep. cbn in Hstep.
    destruct (cycles st !! i) as [c|] eqn:Hi; [|discriminate].
    destruct (c_pc c) eqn:Hpc; try discriminate.
    destruct (due <=? now st); [|discriminate]. injection Hstep as <-.
    exists c. split; [reflexivity|].
    unfold timeout_callback, call, upd_cycle. cbn.
    rewrite stopMediaTracks_calls. now destruct (mediaRecorderRef st).
  - intros i videoResult st st' Hstep. cbn in Hstep.
    destruct (cycles st !! i) as [c|] eqn:Hi; [|discriminate].
    destruct (c_pc c) eqn:Hpc; try discriminate. injection Hstep as <-.
    exists c. split; [reflexivity|]. split; [reflexivity|].
    unfold timeout_video_settled, call, upd_cycle. cbn.
    eexists. rewrite list_lookup_alter_eq, Hi. cbn. split; reflexivity.
  - intros i err st st' Hstep. cbn in Hstep.
    destruct (cycles st !! i) as [c|] eqn:Hi; [|discriminate].
    destruct (c_pc c) eqn:Hpc; try discriminate. injection Hstep as <-.
    unfold timeout_video_settled, handleApiError, upd_cycle.
    destruct (credentialInvalid err); cbn; auto.
  - intros i videoResult audioResult dateNow newDate st st' (c & Hi & Hpc) Hstep.
    cbn in Hstep. rewrite Hi, Hpc in Hstep. injection Hstep as <-.
    eexists. unfold timeout_audio_settled, showRecord, upd_cycle. cbn.
    repeat split; reflexivity.
  - reflexivity.
Qed.

(** ** The budget of a video cycle *)

Lemma forallb_lookup {A} (p : A -> bool) (l : list A) i x :
  forallb p l = true -> l !! i = Some x -> p x = true.
Proof.
  intros H Hi. rewrite forallb_forall in H. apply H.
  apply list_elem_of_In. eapply list_elem_of_lookup_2; eauto.
Qed.

Lemma dead_no_timer c : dead c -> c_interval c = None /\ c_pc c = Returned.
Proof. intros [Hpc Hok]. unfold cycle_ok in Hok. rewrite Hpc in Hok. tauto. Qed.

Lemma acquired_capturing st i c :
  Inv st -> cycles st !! i = Some c -> c_pc c = AtGetUserMedia ->
  c_recordMode c = video -> recordMode st = video -> status st = recording ->
  capturing (now st) i (c_subject c) (c_apiKey c) (startRecording_acquired i c st).
Proof.
  intros HI Hi Hpc Hm Hrm Hs.
  unfold capturing, others_dead, startRecording_acquired, upd_cycle. rewrite Hm. cbn.
  split_and!; auto.
  - intros j cj Hj Hne. rewrite !list_lookup_alter_ne in Hj by congruence.
    eapply (inv_others _ _ _ _ _ HI Hi); eauto; congruence.
  - eexists. rewrite !list_lookup_alter_eq, Hi. cbn.
    repeat split; cbn; try reflexivity; lia.
Qed.

Lemma capturing_step t0 i subj key e st st' :
  capturing t0 i subj key st ->
  timer_event e = true -> step e st = Some st' ->
  capturing t0 i subj key st' \/ expired t0 i subj key st'.
Proof.
  intros (Hrm & Hs & Hmr & Hsr & Hfr & Hod & c & Hi & Hsubj & Hkey & Hpc & Hst & Hrec
          & Hint & Hnow & Hb) He Hstep.
  destruct e; try discriminate; cbn in Hstep.
  - (* the interval *)
    destruct frame as [data|]; [|discriminate].
    destruct (cycles st !! i0) as [c1|] eqn:Hi1; [|discriminate].
    destruct (decide (i0 = i)) as [->|Hne].
    + rewrite Hi in Hi1. injection Hi1 as <-. rewrite Hint in Hstep.
      destruct (Z.leb_spec (t0 + 500 * (Z.of_nat (length (c_frames c)) + 1)) (now st));
        [|discriminate].
      injection Hstep as <-. left. unfold capturing, others_dead.
      unfold frameInterval_callback, videoRef_current, upd_cycle. rewrite Hrm, Hs. cbn.
      split_and!; auto.
      * intros j cj Hj Hne. rewrite !list_lookup_alter_ne in Hj by congruence. eauto.
      * eexists. rewrite !list_lookup_alter_eq, Hi. cbn.
        repeat split; cbn; rewrite ?length_app; cbn;
          try reflexivity; try assumption; try (f_equal; lia); lia.
    + destruct (dead_no_timer _ (Hod _ _ Hi1 Hne)) as [E _]. now rewrite E in Hstep.
  - (* the budget timer *)
    destruct (cycles st !! i0) as [c1|] eqn:Hi1; [|discriminate].
    destruct (decide (i0 = i)) as [->|Hne].
    + rewrite Hi in Hi1. injection Hi1 as <-. rewrite Hpc in Hstep.
      destruct (Z.leb_spec (t0 + 5000) (now st)); [|discriminate].
      injection Hstep as <-. right. unfold expired, others_dead.
      unfold timeout_callback, stopMediaTracks, call, upd_cycle.
      rewrite Hmr. cbn. rewrite Hsr. cbn. rewrite Hfr. cbn.
      split_and!; auto.
      * intros j cj Hj Hne. rewrite !list_lookup_alter_ne in Hj by congruence. eauto.
      * eexists. rewrite !list_lookup_alter_eq, Hi. cbn.
        unfold MediaRecorder_stop. rewrite Hrec. cbn.
        repeat split; cbn; try reflexivity; try lia.
        rewrite last_snoc. now rewrite Hsubj, Hkey.
    + destruct (dead_no_timer _ (Hod _ _ Hi1 Hne)) as [_ E]. now rewrite E in Hstep.
  - (* time passes *)
    destruct (Z.leb_spec 0 dt); [|discriminate]. cbn in Hstep.
    destruct (forallb _ _) eqn:Hall; [|discriminate]. injection Hstep as <-.
    pose proof (forallb_lookup _ _ _ _ Hall Hi) as Ht.
    unfold timers_after in Ht. rewrite Hint, Hpc in Ht.
    apply andb_true_iff in Ht as [Ht1 Ht2].
    apply Z.leb_le in Ht1, Ht2.
    left. unfold capturing, others_dead. cbn. split_and!; auto.
    exists c. cbn. repeat split; auto; lia.
Qed.

Lemma expired_step t0 i subj key e st st' :
  expired t0 i subj key st -> timer_event e = true -> step e st = Some st' ->
  expired t0 i subj key st'.
Proof.
  intros (Hs & Hnow & Hod & c & Hi & Hpc & Hst & Hint & Hrec & Hk & Hcall) He Hstep.
  destruct e; try discriminate; cbn in Hstep.
  - destruct frame as [data|]; [|discriminate].
    destruct (cycles st !! i0) as [c1|] eqn:Hi1; [|discriminate].
    destruct (decide (i0 = i)) as [->|Hne].
    + rewrite Hi in Hi1. injection Hi1 as <-. now rewrite Hint in Hstep.
    + destruct (dead_no_timer _ (Hod _ _ Hi1 Hne)) as [E _]. now rewrite E in Hstep.
  - destruct (cycles st !! i0) as [c1|] eqn:Hi1; [|discriminate].
    destruct (decide (i0 = i)) as [->|Hne].
    + rewrite Hi in Hi1. injection Hi1 as <-. now rewrite Hpc in Hstep.
    + destruct (dead_no_timer _ (Hod _ _ Hi1 Hne)) as [_ E]. now rewrite E in Hstep.
  - destruct (Z.leb_spec 0 dt); [|discriminate]. cbn in Hstep.
    destruct (forallb _ _); [|discriminate]. injection Hstep as <-.
    unfold expired, others_dead. cbn. split_and!; auto; try lia. exists c. split_and!; auto; lia.
Qed.

Lemma budget_run t0 i subj key es :
  forall st st',
    capturing t0 i subj key st \/ expired t0 i subj key st ->
    forallb timer_event es = true -> run es st = Some st' ->
    capturing t0 i subj key st' \/ expired t0 i subj key st'.
Proof.
  induction es as [|e es IH]; intros st st' H Hes Hrun; cbn in *.
  - now injection Hrun as <-.
  - apply andb_true_iff in Hes as [He Hes].
    destruct (step e st) as [st1|] eqn:Hs; [|discriminate].
    apply (IH st1 st'); auto.
    destruct H as [H|H]; [eapply capturing_step; eauto|].
    right. eapply expired_step; eauto.
Qed.

Lemma forallb_lookup_intro {A} (p : A -> bool) (l : list A) :
  (forall j x, l !! j = Some x -> p x = true) -> forallb p l = true.
Proof.
  induction l as [|a l IH]; intros H; cbn; [reflexivity|].
  rewrite (H 0%nat a eq_refl), IH; [reflexivity|].
  intros j x Hj. exact (H (S j) x Hj).
Qed.

Lemma capturing_wait t0 i subj key st dt :
  capturing t0 i subj key st -> 0 <= dt ->
  now st + dt <= t0 + 500 * (Z.of_nat (length (frames_at i st)) + 1) ->
  now st + dt <= t0 + 5000 ->
  step (Wait dt) st = Some (set_now (now st + dt) st).
Proof.
  intros (Hrm & Hs & Hmr & Hsr & Hfr & Hod & c & Hi & Hsubj & Hkey & Hpc & Hst & Hrec
          & Hint & Hnow & Hb) Hdt H1 H2.
  unfold frames_at in H1. rewrite Hi in H1.
  cbn. destruct (Z.leb_spec 0 dt); [|lia]. cbn.
  rewrite forallb_lookup_intro; [reflexivity|].
  intros j cj Hj. unfold timers_after. destruct (decide (j = i)) as [->|Hne].
  - rewrite Hi in Hj. injection Hj as <-. rewrite Hint, Hpc.
    apply andb_true_iff. split; apply Z.leb_le; lia.
  - destruct (dead_no_timer _ (Hod _ _ Hj Hne)) as [-> ->]. reflexivity.
Qed.

Lemma ticks_run t0 i subj key fs :
  forall st,
    capturing t0 i subj key st ->
    now st = t0 + 500 * Z.of_nat (length (frames_at i st)) ->
    (length (frames_at i st) + length fs <= 9)%nat ->
    exists st',
      run (ticks i fs) st = Some st'
      /\ capturing t0 i subj key st'
      /\ frames_at i st' = (frames_at i st ++ fs)%list
      /\ now st' = t0 + 500 * Z.of_nat (length (frames_at i st')).
Proof.
  induction fs as [|f fs IH]; intros st Hc Hn Hl.
  - exists st. rewrite app_nil_r. auto.
  - cbn [ticks tick app run].
    rewrite (capturing_wait t0 i subj key st 500 Hc) by (cbn in Hl; lia).
    pose proof Hc as (Hrm & Hs & Hmr & Hsr & Hfr & Hod & c & Hi & Hsubj & Hkey & Hpc
                      & Hst & Hrec & Hint & Hnow & Hb).
    assert (Hfa : frames_at i st = c_frames c) by (unfold frames_at; now rewrite Hi).
    rewrite Hfa in *.
    cbn [step]. cbn [cycles set_now now]. rewrite Hi, Hint.
    destruct (Z.leb_spec (t0 + 500 * (Z.of_nat (length (c_frames c)) + 1))
                (now st + 500)); [|lia].
    set (st1 := frameInterval_callback i _ (Some f) (set_now (now st + 500) st)).
    assert (H1 : capturing t0 i subj key st1
                 /\ frames_at i st1 = (c_frames c ++ [f])%list
                 /\ now st1 = now st + 500).
    { subst st1. unfold capturing, others_dead, frames_at, frameInterval_callback,
        videoRef_current, upd_cycle. cbn. rewrite Hrm, Hs. cbn.
      rewrite !list_lookup_alter_eq, Hi. cbn. split_and!; auto.
      - intros j cj Hj Hne. rewrite !list_lookup_alter_ne in Hj by congruence. eauto.
      - eexists. split; [reflexivity|]. cbn. rewrite length_app. cbn in *.
        split_and!; auto; try (f_equal; lia); lia. }
    destruct H1 as (Hc1 & Hf1 & Hn1).
    destruct (IH st1 Hc1) as (st' & Hrun & Hc' & Hf' & Hn').
    + rewrite Hf1, Hn1, length_app. cbn. lia.
    + rewrite Hf1, length_app. cbn in *. lia.
    + exists st'. split; [exact Hrun|]. split; [exact Hc'|].
      split; [|exact Hn']. rewrite Hf', Hf1, <- app_assoc. reflexivity.
Qed.

Lemma run_app es1 es2 st st1 :
  run es1 st = Some st1 -> run (es1 ++ es2)%list st = run es2 st1.
Proof.
  revert st. induction es1 as [|e es1 IH]; intros st H; cbn in *.
  - now injection H as <-.
  - destruct (step e st); [auto|discriminate].
Qed.

Lemma expired_released t0 i subj key st :
  expired t0 i subj key st ->
  device_held st = false /\ interval_scheduled st = false
  /\ timeout_scheduled st = false.
Proof.
  intros (Hs & Hnow & Hod & c & Hi & Hpc & Hst & Hint & Hrec & Hk & Hcall).
  assert (H : forall j cj, cycles st !! j = Some cj ->
                c_stream cj = false /\ c_interval cj = None
                /\ (forall d, c_pc cj <> AtTimeout d)).
  { intros j cj Hj. destruct (decide (j = i)) as [->|Hne].
    - rewrite Hi in Hj. injection Hj as <-. rewrite Hpc. split_and!; auto; discriminate.
    - destruct (Hod _ _ Hj Hne) as [E Hok]. unfold cycle_ok in Hok. rewrite E in *.
      split_and!; try tauto; discriminate. }
  split_and!; apply existsb_false_lookup; intros j cj Hj;
    destruct (H j cj Hj) as (H1 & H2 & H3); auto.
  - now rewrite H2.
  - destruct (c_pc cj) eqn:E; auto. now destruct (H3 due).
Qed.

Lemma capturing_held t0 i subj key st :
  capturing t0 i subj key st -> device_held st = true /\ now st <= t0 + 5000.
Proof.
  intros (Hrm & Hs & Hmr & Hsr & Hfr & Hod & c & Hi & Hsubj & Hkey & Hpc & Hst & Hrec
          & Hint & Hnow & Hb).
  split; [|exact Hb]. unfold device_held. apply existsb_exists. exists c.
  split; [|exact Hst]. apply list_elem_of_In. eapply list_elem_of_lookup_2; eauto.
Qed.

(** C7: a video cycle whose stream has been granted at time [t0], the
    user doing nothing more.  While the budget timer is pending, the clock
    is at most [t0 + 5000], the recorder records, the device is held, and
    after [k] frames the interval is due at [t0 + 500 (k + 1)]: a frame has
    been appended at every multiple of 500 ms that has passed.  Once the
    budget timer has fired, which the clock cannot pass [t0 + 5000]
    without, the recorder has been stopped, the interval cancelled and the
    device released, 9 or 10 frames have gone to the analysis, and no timer
    is left.  The run in which the interval fires nine times and the
    timer then fires exists, and ends at [t0 + 5000] with the nine frames. *)
Theorem video_budget st i c :
  reachable st ->
  cycles st !! i = Some c -> c_pc c = AtGetUserMedia -> c_recordMode c = video ->
  recordMode st = video -> status st = recording ->
  let t0 := now st in
  (forall es st',
     forallb timer_event es = true ->
     run (GetUserMediaSettled i true :: es) st = Some st' ->
     (capturing t0 i (c_subject c) (c_apiKey c) st'
      /\ device_held st' = true /\ now st' <= t0 + 5000)
     \/ (expired t0 i (c_subject c) (c_apiKey c) st'
         /\ device_held st' = false /\ interval_scheduled st' = false
         /\ timeout_scheduled st' = false))
  /\ (forall frames,
        length frames = 9%nat ->
        exists st',
          run (GetUserMediaSettled i true :: budget_schedule i frames) st = Some st'
          /\ expired t0 i (c_subject c) (c_apiKey c) st'
          /\ frames_at i st' = frames
          /\ now st' = t0 + 5000
          /\ device_held st' = false).
Proof.
  intros Hr Hi Hpc Hm Hrm Hs t0. apply reachable_Inv in Hr.
  pose proof (acquired_capturing st i c Hr Hi Hpc Hm Hrm Hs) as Hc0.
  fold t0 in Hc0.
  assert (Hstep0 : step (GetUserMediaSettled i true) st
                   = Some (startRecording_acquired i c st)).
  { cbn. now rewrite Hi, Hpc. }
  split.
  - intros es st' Hes Hrun. cbn [run] in Hrun. rewrite Hstep0 in Hrun.
    destruct (budget_run _ _ _ _ es _ _ (or_introl Hc0) Hes Hrun) as [H|H].
    + left. split; [exact H|]. eapply capturing_held; eauto.
    + right. split; [exact H|]. eapply expired_released; eauto.
  - intros frames Hlen. cbn [run]. rewrite Hstep0.
    set (st0 := startRecording_acquired i c st) in *.
    assert (Hf0 : frames_at i st0 = []).
    { subst st0. unfold frames_at, startRecording_acquired, upd_cycle.
      rewrite Hm. cbn. now rewrite !list_lookup_alter_eq, Hi. }
    assert (Hn0 : now st0 = t0).
    { subst st0. unfold startRecording_acquired, upd_cycle. rewrite Hm. reflexivity. }
    destruct (ticks_run t0 i (c_subject c) (c_apiKey c) frames st0 Hc0)
      as (st1 & Hrun1 & Hc1 & Hf1 & Hn1).
    { rewrite Hf0, Hn0. cbn. lia. }
    { rewrite Hf0. cbn. lia. }
    rewrite Hf0 in Hf1. cbn in Hf1. rewrite Hf1, Hlen in Hn1.
    unfold budget_schedule.
    assert (Hw : step (Wait 500) st1 = Some (set_now (now st1 + 500) st1)).
    { apply (capturing_wait t0 i (c_subject c) (c_apiKey c)); auto; try lia;
        rewrite ?Hf1, ?Hlen; lia. }
    pose proof Hc1 as (Hrm1 & Hs1 & Hmr & Hsr & Hfr & Hod & c1 & Hi1 & Hsubj & Hkey
                       & Hpc1 & Hst1 & Hrec1 & Hint1 & Hnow1 & Hb1).
    assert (Hfc : c_frames c1 = frames) by (unfold frames_at in Hf1; now rewrite Hi1 in Hf1).
    set (st2 := timeout_callback i c1 (set_now (now st1 + 500) st1)).
    assert (Hexp : expired t0 i (c_subject c) (c_apiKey c) st2).
    { subst st2. unfold expired, others_dead, timeout_callback, stopMediaTracks,
        call, upd_cycle.
      cbn. rewrite Hmr. cbn. rewrite Hsr. cbn. rewrite Hfr. cbn.
      split_and!; auto; try lia.
      - intros j cj Hj Hne. rewrite !list_lookup_alter_ne in Hj by congruence. eauto.
      - eexists. rewrite !list_lookup_alter_eq, Hi1. cbn.
        split; [reflexivity|].
        unfold MediaRecorder_stop. rewrite Hrec1. cbn. rewrite Hfc, Hlen.
        split_and!; try reflexivity; try lia.
        rewrite last_snoc. now rewrite Hsubj, Hkey. }
    exists st2. split_and!.
    + erewrite run_app by exact Hrun1. cbn [run]. rewrite Hw.
      cbn [step cycles set_now now]. rewrite Hi1, Hpc1.
      destruct (Z.leb_spec (t0 + 5000) (now st1 + 500)); [reflexivity|lia].
    + exact Hexp.
    + subst st2. unfold frames_at, timeout_callback, stopMediaTracks, call, upd_cycle.
      cbn. rewrite Hmr. cbn. rewrite Hsr. cbn. rewrite Hfr. cbn.
      rewrite !list_lookup_alter_eq, Hi1. cbn.
      unfold MediaRecorder_stop. now rewrite Hrec1.
    + subst st2. unfold timeout_callback, stopMediaTracks, call, upd_cycle.
      cbn. rewrite Hmr. cbn. rewrite Hsr. cbn. rewrite Hfr. cbn. lia.
    + eapply expired_released. exact Hexp.
Qed.

(** ** The sample runs *)

Lemma reachable_mounted stored t0 : reachable (mounted stored t0).
Proof. exists stored, t0, []. reflexivity. Defined.

Lemma reachable_after es st :
  reachable st -> run es st <> None -> reachable (after es st).
Proof.
  intros (stored & t0 & es0 & H) Hrun. unfold after.
  destruct (run es st) as [st'|] eqn:E; [|contradiction].
  exists stored, t0, (es0 ++ es)%list. now rewrite (run_app _ _ _ _ H).
Defined.

(** The scenario of the specification: subject Dog, audio mode, the
    service answers Alert Bark with confidence 0.82. *)
Example dog_scenario :
  exists r,
    head (history st_dog_result) = Some r
    /\ CryRecord.subject r = Dog
    /\ CryRecord.cryType r = "Alert Bark"
    /\ CryRecord.confidence r = 0.82%float
    /\ CryRecord.id r = "1700000000000"
    /\ CryRecord.timestamp r = "2023-11-14T22:13:20.001Z".
Proof. eexists. vm_compute. repeat split; reflexivity. Qed.

(** A whole video cycle left alone: nine frames, the video request before
    the audio request, and the merged record. *)
Example video_scenario :
  calls st_video_result
  = [analyzeVideoFrames nine_frames Baby "key"; translateAudio "chunk" Baby "key"]
  /\ history st_video_result
     = [newRecord 1700000005000 1700000005000 Baby (combinedResult calm_video hungry_audio)]
  /\ combinedResult calm_video hungry_audio
     = TranslationResult.mk "Hungry" 0.8 "Keep watching. Feed the baby."
         (Some "Waving arms")
  /\ status st_video_result = result
  /\ device_held st_video_result = false.
Proof. vm_compute. repeat split; reflexivity. Qed.

(** The double-precision mean is not always the exact one: the mean of 1
    and 2^-53 comes out as 0.5. *)
Example mean_is_rounded : ((1 + 0x1p-53) / 2 = 0.5)%float.
Proof. reflexivity. Qed.

Lemma combined_analysis_witness :
  pc_at 0 (cycles st_video_audio_pending) (AtTranslateAudioV calm_video)
  /\ step (TranslateAudioSettled 0 (Fulfilled hungry_audio) 1700000005000 1700000005000)
       st_video_audio_pending = Some st_video_result
  /\ exists r,
       latestResult st_video_result = Some r
       /\ CryRecord.cryType r = "Hungry"
       /\ CryRecord.confidence r = 0.8%float
       /\ CryRecord.suggestion r = "Keep watching. Feed the baby."
       /\ CryRecord.behavior r = Some "Waving arms".
Proof.
  assert (H1 : pc_at 0 (cycles st_video_audio_pending) (AtTranslateAudioV calm_video)).
  { eexists. split; vm_compute; reflexivity. }
  assert (H2 : step (TranslateAudioSettled 0 (Fulfilled hungry_audio)
                       1700000005000 1700000005000) st_video_audio_pending
               = Some st_video_result) by (vm_compute; reflexivity).
  split; [exact H1|]. split; [exact H2|].
  destruct (proj1 (proj2 (proj2 (proj2 combined_analysis))) _ _ _ _ _ _ _ H1 H2)
    as (r & Hr & _ & _ & Hc & Hf & Hs & Hb).
  exists r. split; [exact Hr|]. rewrite Hc, Hf, Hs, Hb. repeat split; reflexivity.
Defined.

Lemma completed_cycle_witness :
  step (TranslateAudioSettled 0 (Fulfilled alert_bark) 1700000000000 1700000000001)
    st_audio_in_flight = Some st_dog_result
  /\ length (history st_dog_result) = S (length (history st_audio_in_flight))
  /\ status st_dog_result = result.
Proof.
  assert (H : step (TranslateAudioSettled 0 (Fulfilled alert_bark)
                      1700000000000 1700000000001) st_audio_in_flight
              = Some st_dog_result) by (vm_compute; reflexivity).
  split; [exact H|].
  destruct (completed_cycle_appends_one_record _ _ _ _ _ _ H)
    as (r & c & _ & _ & _ & _ & Hlen & _ & Hst & _).
  split; [exact Hlen|exact Hst].
Defined.

Lemma analysis_failure_witness :
  step (TranslateAudioSettled 0 (Rejected key_rejected) 0 0) st_audio_in_flight
  = Some (after [TranslateAudioSettled 0 (Rejected key_rejected) 0 0] st_audio_in_flight)
  /\ analysis_failure (TranslateAudioSettled 0 (Rejected key_rejected) 0 0)
     = Some key_rejected
  /\ credential_indicator key_rejected
  /\ let st' := after [TranslateAudioSettled 0 (Rejected key_rejected) 0 0]
                  st_audio_in_flight in
     status st' = idle /\ localStorage st' = None /\ apiKey st' = ""
     /\ isApiKeyModalOpen st' = true.
Proof.
  assert (H1 : step (TranslateAudioSettled 0 (Rejected key_rejected) 0 0)
                 st_audio_in_flight
               = Some (after [TranslateAudioSettled 0 (Rejected key_rejected) 0 0]
                         st_audio_in_flight)) by (vm_compute; reflexivity).
  assert (H2 : analysis_failure (TranslateAudioSettled 0 (Rejected key_rejected) 0 0)
               = Some key_rejected) by reflexivity.
  assert (H3 : credential_indicator key_rejected).
  { apply credentialInvalid_spec. vm_compute. reflexivity. }
  split; [exact H1|]. split; [exact H2|]. split; [exact H3|].
  destruct (analysis_failure_handling _ _ _ _ H1 H2) as (Hs & Hyes & _).
  destruct (Hyes H3) as (Hl & Hk & Hm & _). cbn zeta. auto.
Defined.



(** C5 as stated fails: the failed start has emptied the latest result,
    which was there before the click. *)
Lemma failed_start_clears_latest_result :
  reachable st_dog_result
  /\ latestResult st_dog_result
     = Some (newRecord 1700000000000 1700000000001 Dog alert_bark)
  /\ run [ClickRecord; GetUserMediaSettled 1 false] st_dog_result
     = Some (after [ClickRecord; GetUserMediaSettled 1 false] st_dog_result)
  /\ latestResult (after [ClickRecord; GetUserMediaSettled 1 false] st_dog_result) = None
  /\ latestResult (after [ClickRecord; GetUserMediaSettled 1 false] st_dog_result)
     <> latestResult st_dog_result.
Proof.
  split.
  { repeat (apply reachable_after; [|vm_compute; discriminate]). apply reachable_mounted. }
  split; [vm_compute; reflexivity|]. split; [vm_compute; reflexivity|].
  split; [vm_compute; reflexivity|]. vm_compute. discriminate.
Qed.

Lemma capture_unavailable_witness :
  recordButton_disabled st_dog_result = false
  /\ status st_dog_result <> recording
  /\ exists st1 st2,
       step ClickRecord st_dog_result = Some st1
       /\ step (GetUserMediaSettled 1 false) st1 = Some st2
       /\ status st2 = idle
       /\ error st2 = Some msg_cannot_start
       /\ history st2 = history st_dog_result
       /\ device_held st2 = false.
Proof.
  assert (H1 : recordButton_disabled st_dog_result = false) by (vm_compute; reflexivity).
  assert (H2 : status st_dog_result <> recording) by (vm_compute; discriminate).
  split; [exact H1|]. split; [exact H2|].
  destruct (capture_unavailable st_dog_result H1 H2)
    as (st1 & st2 & Hc & Hg & He & Hs & _ & Hh & _ & _ & _ & _ & _ & _ & _ & _ & _ & _
        & _ & Hd).
  exists st1, st2. split; [exact Hc|]. split; [exact Hg|]. split; [exact Hs|].
  split; [exact He|]. split; [exact Hh|]. rewrite Hd. vm_compute. reflexivity.
Defined.



Lemma video_budget_witness :
  let c := {| c_recordMode := video; c_subject := Baby; c_apiKey := "key";
              c_pc := AtGetUserMedia; c_stream := false; c_recorder := no_recorder;
              c_frames := []; c_interval := None |} in
  reachable st_video_asked
  /\ cycles st_video_asked !! 0%nat = Some c
  /\ recordMode st_video_asked = video
  /\ status st_video_asked = recording
  /\ exists st',
       run (GetUserMediaSettled 0 true :: budget_schedule 0 nine_frames) st_video_asked
       = Some st'
       /\ frames_at 0 st' = nine_frames
       /\ now st' = 5000
       /\ device_held st' = false.
Proof.
  intros c.
  assert (H1 : reachable st_video_asked).
  { repeat (apply reachable_after; [|vm_compute; discriminate]). apply reachable_mounted. }
  assert (H2 : cycles st_video_asked !! 0%nat = Some c) by (vm_compute; reflexivity).
  assert (H3 : recordMode st_video_asked = video) by (vm_compute; reflexivity).
  assert (H4 : status st_video_asked = recording) by (vm_compute; reflexivity).
  split; [exact H1|]. split; [exact H2|]. split; [exact H3|]. split; [exact H4|].
  destruct (proj2 (video_budget st_video_asked 0%nat c H1 H2 eq_refl eq_refl H3 H4)
              nine_frames eq_refl) as (st' & Hrun & _ & Hf & Hn & Hd).
  exists st'. split; [exact Hrun|]. split; [exact Hf|]. split; [exact Hn|exact Hd].
Defined.

Lemma credential_gate_witness :
  reachable st_no_key
  /\ apiKey st_no_key = ""
  /\ recordButton_disabled st_no_key = true
  /\ step ClickRecord st_no_key = Some st_no_key
  /\ isApiKeyModalOpen st_no_key = true
  /\ localStorage (handleSaveApiKey "key" st_no_key) = Some "key"
  /\ exists st2,
       step ClickRecord (handleSaveApiKey "key" st_no_key) = Some st2
       /\ status st2 = recording.
Proof.
  assert (H1 : reachable st_no_key) by apply reachable_mounted.
  assert (H2 : apiKey st_no_key = "") by reflexivity.
  split; [exact H1|]. split; [exact H2|].
  destruct (credential_gate st_no_key H1 H2) as (Hd & Hc & Hm & _ & Hsave).
  split; [exact Hd|]. split; [exact Hc|]. split; [exact Hm|].
  destruct (Hsave "key" ltac:(discriminate))
    as (Hl & _ & _ & _ & st2 & Hstep & Hs & _).
  split; [exact Hl|]. exists st2. split; [exact Hstep|exact Hs].
Defined.

Lemma history_append_only_witness :
  run [ClickRecord; GetUserMediaSettled 1 false] st_dog_result
  = Some (after [ClickRecord; GetUserMediaSettled 1 false] st_dog_result)
  /\ exists newer,
       history (after [ClickRecord; GetUserMediaSettled 1 false] st_dog_result)
       = (newer ++ history st_dog_result)%list.
Proof.
  assert (H : run [ClickRecord; GetUserMediaSettled 1 false] st_dog_result
              = Some (after [ClickRecord; GetUserMediaSettled 1 false] st_dog_result))
    by (vm_compute; reflexivity).
  split; [exact H|]. exact (proj2 history_append_only _ _ _ H).
Defined.

Lemma record_id_witness :
  step (TranslateAudioSettled 0 (Fulfilled alert_bark) 1700000000000 1700000000001)
    st_audio_in_flight = Some st_dog_result
  /\ history st_dog_result
     = newRecord 1700000000000 1700000000001 Dog alert_bark :: history st_audio_in_flight
  /\ CryRecord.id (newRecord 1700000000000 1700000000001 Dog alert_bark)
     = Js.toString 1700000000000.
Proof.
  assert (H1 : step (TranslateAudioSettled 0 (Fulfilled alert_bark)
                       1700000000000 1700000000001) st_audio_in_flight
               = Some st_dog_result) by (vm_compute; reflexivity).
  assert (H2 : history st_dog_result
               = newRecord 1700000000000 1700000000001 Dog alert_bark
                 :: history st_audio_in_flight) by (vm_compute; reflexivity).
  split; [exact H1|]. split; [exact H2|].
  destruct (proj1 record_id_is_creation_time _ _ _ _ H1 H2)
    as (i & res & dateNow & newDate & He & Hid).
  injection He as _ _ <- _. exact Hid.
Defined.

(** * Further properties *)

(** ** The status, the key and the latest result *)

(** Case analysis on an event that did happen. *)
Ltac step_cases Hstep :=
  cbn in Hstep;
  repeat match type of Hstep with
         | context [match cycles ?st !! ?i with _ => _ end] =>
             let c := fresh "c" in let Hi := fresh "Hi" in
             destruct (cycles st !! i) as [c|] eqn:Hi; [|discriminate]
         | context [match c_pc ?c with _ => _ end] =>
             let Hpc := fresh "Hpc" in destruct (c_pc c) eqn:Hpc; try discriminate
         | context [match c_recorder ?c with _ => _ end] =>
             let Hrec := fresh "Hrec" in destruct (c_recorder c) eqn:Hrec; try discriminate
         | context [match c_interval ?c with _ => _ end] =>
             let Hint := fresh "Hint" in destruct (c_interval c) eqn:Hint; try discriminate
         | context [if ?b then _ else _] => destruct b eqn:?; try discriminate
         end;
  try (injection Hstep as <-).

Lemma status_of_active st i c :
  Inv st -> cycles st !! i = Some c -> status_ok (status st) c.
Proof. intros HI Hi. apply (proj2 HI _ _ Hi). Qed.

(** The recorder of an audio cycle is stopping only before its [onstop]
    handler has run. *)
Lemma audio_stopping_at_onstop st i c :
  Inv st -> cycles st !! i = Some c ->
  c_recorder c = rec_stopping -> c_recordMode c = audio -> c_pc c = AtOnstop.
Proof.
  intros HI Hi Hrec Hm. destruct (proj2 HI _ _ Hi) as (Hok & _).
  unfold cycle_ok in Hok.
  destruct (c_pc c); try reflexivity; rewrite ?Hm, ?Hrec in Hok;
    intuition congruence.
Qed.

(** What the invariant says of the status when the event belongs to a
    cycle. *)
Ltac with_status HI :=
  try match goal with
      | Hi : cycles _ !! _ = Some ?c, Hrec : c_recorder ?c = rec_stopping,
        Hm : c_recordMode ?c = audio |- _ =>
          let H := fresh "Hpc" in
          pose proof (audio_stopping_at_onstop _ _ _ HI Hi Hrec Hm) as H
      end;
  try match goal with
      | Hi : cycles _ !! _ = Some ?c |- _ =>
          let H := fresh "Hok" in
          pose proof (status_of_active _ _ _ HI Hi) as H; unfold status_ok in H;
          repeat match goal with
                 | Hpc : c_pc c = _ |- _ => rewrite Hpc in H
                 end
      end.

Lemma allowed_refl s : allowed s s = true.
Proof. now destruct s. Qed.

Lemma status_step e st st' :
  Inv st -> step e st = Some st' -> allowed (status st) (status st') = true.
Proof.
  intros HI Hstep. destruct e; step_cases Hstep; with_status HI.
  all: try (unfold_handlers; case_all; try apply allowed_refl;
            repeat match goal with
                   | H : status _ = _ |- _ => rewrite H
                   | H : _ \/ _ |- _ => destruct H
                   end; try reflexivity; try discriminate).
  all: unfold recordButton_disabled in *;
    match goal with H : status _ = _ |- _ => rewrite H in * end; discriminate.
Qed.

Lemma store_ok_step e st st' :
  Inv st -> store_ok st -> step e st = Some st' -> store_ok st'.
Proof.
  intros HI (Hk & He & Hl) Hstep. unfold store_ok, stored_key in *.
  destruct e; step_cases Hstep; with_status HI.
  all: unfold_handlers; case_all.
  all: split_and!; try assumption; try reflexivity; try congruence; intros;
    repeat match goal with
           | H : error _ <> None |- _ => apply He in H
           | H : latestResult _ = Some _ |- _ => apply Hl in H; destruct H
           | H : _ \/ _ |- _ => destruct H
           | H : Some _ = Some _ |- _ => injection H as <-
           end; try congruence; auto.
Qed.

Lemma store_ok_mounted stored t0 : store_ok (mounted stored t0).
Proof.
  unfold store_ok, stored_key, mounted, useEffect_mount.
  destruct stored as [k|]; cbn; [destruct (Js.truthy k) eqn:Hk; cbn|];
    split_and!; try congruence.
  now destruct k.
Qed.

Lemma reachable_store_ok st : reachable st -> store_ok st.
Proof.
  intros (stored & t0 & es & Hrun).
  assert (HI := Inv_mounted stored t0). assert (HS := store_ok_mounted stored t0).
  revert Hrun HI HS. generalize (mounted stored t0). induction es as [|e es IH]; cbn.
  - now intros s [= ->].
  - intros s Hrun HI HS. destruct (step e s) as [s'|] eqn:Hs; [|discriminate].
    apply (IH s' Hrun); [eapply Inv_step | eapply store_ok_step]; eauto.
Qed.

(** X1.  The status moves only along the arrows idle -> recording,
    recording -> processing, recording -> idle, processing -> result,
    processing -> idle and result -> recording: whatever happens, a result
    is never shown without a processing phase before it, processing never
    goes back to recording, and a result is left only by a new recording. *)
Theorem status_transitions e st st' :
  reachable st -> step e st = Some st' ->
  allowed (status st) (status st') = true.
Proof. intros Hr. apply status_step, reachable_Inv, Hr. Qed.


(** X4.  The key in use is always the one in localStorage (an absent item
    standing for the empty string), so a reload of the page brings back the
    same key, and opens the modal exactly when there is none. *)
Theorem reload_restores_key st t0 :
  reachable st ->
  apiKey st = stored_key st
  /\ apiKey (mounted (localStorage st) t0) = apiKey st
  /\ isApiKeyModalOpen (mounted (localStorage st) t0) = negb (Js.truthy (apiKey st)).
Proof.
  intros Hr. destruct (reachable_store_ok _ Hr) as (Hk & _).
  split; [exact Hk|]. rewrite Hk. unfold stored_key, mounted, useEffect_mount.
  destruct (localStorage st) as [k|]; cbn; [|split; reflexivity].
  destruct (Js.truthy k) eqn:E; cbn; [split; reflexivity|].
  split; [|reflexivity]. destruct k; [reflexivity|discriminate].
Qed.

(** X5.  The card of the latest result shows the newest record of the
    history, and the test of the status beside it never hides a result that
    is there.  While the latest result is set the screen shows the whole
    history, newest first; once it has been cleared (a new recording, a
    change of subject) the newest record is shown nowhere. *)
Theorem records_on_screen st :
  reachable st ->
  v_latest (render st) = latestResult st
  /\ (forall r, latestResult st = Some r -> head (history st) = Some r)
  /\ displayed (render st)
     = match latestResult st with
       | Some _ => history st
       | None => drop 1 (history st)
       end.
Proof.
  intros Hr. destruct (reachable_store_ok _ Hr) as (_ & _ & Hl).
  assert (Hd : default [] (v_history (render st)) = drop 1 (history st)).
  { cbn. destruct (Z.ltb_spec 1 (Z.of_nat (length (history st)))) as [H|H];
      [reflexivity|].
    destruct (history st) as [|r1 [|r2 l]]; cbn in *; try reflexivity; lia. }
  unfold displayed. rewrite Hd. cbn.
  destruct (latestResult st) as [r|] eqn:E.
  - destruct (Hl r eq_refl) as [-> Hh]. split_and!; try reflexivity.
    + intros r' [= <-]. exact Hh.
    + destruct (history st) as [|r0 l]; [discriminate|]. cbn in Hh.
      injection Hh as ->. reflexivity.
  - split_and!; try reflexivity. discriminate.
Qed.

Lemma status_transitions_witness :
  reachable st_audio_recording
  /\ step ClickRecord st_audio_recording = Some (after [ClickRecord] st_audio_recording)
  /\ allowed (status st_audio_recording)
       (status (after [ClickRecord] st_audio_recording)) = true.
Proof.
  assert (H1 : reachable st_audio_recording).
  { repeat (apply reachable_after; [|vm_compute; discriminate]). apply reachable_mounted. }
  assert (H2 : step ClickRecord st_audio_recording
               = Some (after [ClickRecord] st_audio_recording))
    by (vm_compute; reflexivity).
  split; [exact H1|]. split; [exact H2|].
  exact (status_transitions _ _ _ H1 H2).
Defined.


Lemma reload_restores_key_witness :
  reachable st_dog_result
  /\ apiKey (mounted (localStorage st_dog_result) 7) = "key".
Proof.
  assert (H1 : reachable st_dog_result).
  { repeat (apply reachable_after; [|vm_compute; discriminate]). apply reachable_mounted. }
  split; [exact H1|].
  exact (proj1 (proj2 (reload_restores_key _ 7 H1))).
Defined.

Lemma records_on_screen_witness :
  reachable st_result_dismissed
  /\ history st_result_dismissed
     = [newRecord 1700000000000 1700000000001 Dog alert_bark]
  /\ displayed (render st_result_dismissed) = [].
Proof.
  assert (H1 : reachable st_result_dismissed).
  { repeat (apply reachable_after; [|vm_compute; discriminate]). apply reachable_mounted. }
  split; [exact H1|]. split; [vm_compute; reflexivity|].
  exact (proj2 (proj2 (records_on_screen _ H1))).
Defined.

(** ** Cycles and their requests *)

Lemma captured_alter (f : Cycle -> Cycle) (i : nat) (l : list Cycle) :
  (forall x, captured (f x) = captured x) ->
  captured <$> alter f i l = captured <$> l.
Proof.
  intros Hf. revert i. induction l as [|a l IH]; intros [|i]; cbn;
    try reflexivity.
  - now rewrite Hf.
  - f_equal. apply IH.
Qed.

Lemma captured_stop x : captured (MediaRecorder_stop x) = captured x.
Proof. unfold MediaRecorder_stop. now destruct (c_recorder x). Qed.

Ltac captured_tac :=
  repeat (rewrite captured_alter
            by (intros ?; first [reflexivity | apply captured_stop])).

(** A turn of the event loop leaves what the cycles have captured alone;
    it may add a cycle at the end. *)
Lemma step_captured e st st' :
  step e st = Some st' ->
  exists new, captured <$> cycles st' = ((captured <$> cycles st) ++ new)%list.
Proof.
  intros Hstep. destruct e; step_cases Hstep.
  all: unfold_handlers; case_all; captured_tac.
  all: first [ exists []; rewrite app_nil_r; reflexivity
             | eexists [_]; rewrite fmap_app; reflexivity ].
Qed.

Lemma run_captured es :
  forall st st', run es st = Some st' ->
    exists new, captured <$> cycles st' = ((captured <$> cycles st) ++ new)%list.
Proof.
  induction es as [|e es IH]; cbn; intros st st' Hrun.
  - injection Hrun as <-. exists []. now rewrite app_nil_r.
  - destruct (step e st) as [s1|] eqn:Hs; [|discriminate].
    destruct (step_captured _ _ _ Hs) as (n1 & E1).
    destruct (IH _ _ Hrun) as (n2 & E2).
    exists (n1 ++ n2)%list. now rewrite E2, E1, app_assoc.
Qed.

Lemma captured_lookup (l l' : list Cycle) new (i : nat) c :
  captured <$> l' = ((captured <$> l) ++ new)%list -> l !! i = Some c ->
  exists c', l' !! i = Some c' /\ captured c' = captured c.
Proof.
  intros E Hi.
  assert (H : (captured <$> l') !! i = Some (captured c)).
  { rewrite E. apply lookup_app_l_Some. now rewrite list_lookup_fmap, Hi. }
  rewrite list_lookup_fmap in H. destruct (l' !! i) as [c'|]; [|discriminate].
  exists c'. split; [reflexivity|]. unfold captured in *. cbn in H. congruence.
Qed.

Lemma requests_ok_step e st st' :
  requests_ok st -> step e st = Some st' -> requests_ok st'.
Proof.
  intros (Hkey & Hrq) Hstep.
  destruct (step_captured _ _ _ Hstep) as (new & Hcap).
  assert (Hold : forall i c, cycles st !! i = Some c ->
            exists c', cycles st' !! i = Some c' /\ captured c' = captured c).
  { intros i c Hi. eapply captured_lookup; eauto. }
  assert (Hold_rq : forall rq, rq ∈ calls st ->
            exists i c, cycles st' !! i = Some c
                        /\ call_subject rq = c_subject c /\ call_apiKey rq = c_apiKey c).
  { intros rq Hin. destruct (Hrq rq Hin) as (i & c & Hi & Hs & Hk).
    destruct (Hold i c Hi) as (c' & Hi' & [= _ Hs' Hk']).
    exists i, c'. split_and!; congruence. }
  assert (Hown : forall i c, cycles st !! i = Some c ->
            exists i' c', cycles st' !! i' = Some c'
                          /\ c_subject c = c_subject c' /\ c_apiKey c = c_apiKey c').
  { intros i c Hi. destruct (Hold i c Hi) as (c' & Hi' & [= _ Hs' Hk']).
    exists i, c'. split_and!; congruence. }
  split.
  - intros i c' Hi'.
    assert (Hc : (captured <$> cycles st') !! i = Some (captured c'))
      by now rewrite list_lookup_fmap, Hi'.
    rewrite Hcap in Hc. apply lookup_app_Some in Hc as [Hc|[_ Hc]].
    + rewrite list_lookup_fmap in Hc. destruct (cycles st !! i) as [c|] eqn:Hi;
        [|discriminate].
      injection Hc as _ _ Hk. rewrite <- Hk. eapply Hkey; eauto.
    + clear Hold Hold_rq Hown Hrq. revert Hc Hcap.
      destruct e; step_cases Hstep; unfold_handlers; case_all; captured_tac;
        try (intros Hc Hcap; apply (f_equal length) in Hcap;
             rewrite ?length_app, ?length_fmap in Hcap;
             destruct new; [now rewrite lookup_nil in Hc | cbn in Hcap; lia]).
      all: rewrite fmap_app; intros Hc Hcap; apply app_inv_head in Hcap;
        subst new; cbn in Hc;
        destruct (i - length (captured <$> cycles _))%nat; [|discriminate];
        injection Hc as _ _ <-; unfold recordButton_disabled in *;
        repeat match goal with
               | H : status _ = _ |- _ => rewrite H in *
               end; try discriminate;
        match goal with
        | H : negb (Js.truthy ?k) = false |- _ =>
            destruct k; [discriminate|intros ?; discriminate]
        end.
  - revert Hold_rq Hown. clear Hold Hcap Hkey Hrq.
    destruct e; step_cases Hstep; unfold_handlers; case_all;
      intros Hold_rq Hown rq Hin;
      rewrite ?stopMediaTracks_calls in Hin; cbn in Hin;
      try (apply Hold_rq; exact Hin).
    all: apply elem_of_app in Hin as [Hin|Hin]; [apply Hold_rq; exact Hin|];
      apply list_elem_of_singleton in Hin; subst rq; cbn;
      match goal with
      | Hi : cycles _ !! _ = Some ?c |- _ => apply (Hown _ _ Hi)
      end.
Qed.

Lemma reachable_requests_ok st : reachable st -> requests_ok st.
Proof.
  intros (stored & t0 & es & Hrun).
  assert (H0 : requests_ok (mounted stored t0)).
  { assert (Ec : cycles (mounted stored t0) = [])
      by (unfold mounted, useEffect_mount; cbn;
          destruct stored as [k|]; [destruct (Js.truthy k)|]; reflexivity).
    assert (Eq : calls (mounted stored t0) = [])
      by (unfold mounted, useEffect_mount; cbn;
          destruct stored as [k|]; [destruct (Js.truthy k)|]; reflexivity).
    split.
    - intros i c. rewrite Ec, lookup_nil. discriminate.
    - intros rq. rewrite Eq. intros Hin. now apply elem_of_nil in Hin. }
  revert Hrun H0. generalize (mounted stored t0). induction es as [|e es IH]; cbn.
  - now intros s [= ->].
  - intros s Hrun H0. destruct (step e s) as [s'|] eqn:Hs; [|discriminate].
    apply (IH s' Hrun). eapply requests_ok_step; eauto.
Qed.


(** X6.  A recording keeps the mode, the subject and the key of the moment
    its button was pressed: whatever happens afterwards (another subject
    selected, another key saved, the mode switched), the cycle that click
    started still holds those three values. *)
Theorem closure_capture st es st' :
  recordButton_disabled st = false -> status st <> recording ->
  run (ClickRecord :: es) st = Some st' ->
  exists c, cycles st' !! length (cycles st) = Some c
            /\ c_recordMode c = recordMode st
            /\ c_subject c = subject st
            /\ c_apiKey c = apiKey st.
Proof.
  intros Hd Hs Hrun. cbn in Hrun.
  assert (E : recordButton_onClick st = startRecording st).
  { unfold recordButton_onClick. rewrite Hd. destruct (status st); congruence. }
  rewrite E in Hrun. destruct (run_captured _ _ _ Hrun) as (new & Hcap).
  assert (Hn : cycles (startRecording st) !! length (cycles st)
               = Some {| c_recordMode := recordMode st; c_subject := subject st;
                         c_apiKey := apiKey st; c_pc := AtGetUserMedia;
                         c_stream := false; c_recorder := no_recorder;
                         c_frames := []; c_interval := None |}).
  { cbn. now rewrite lookup_app_r, Nat.sub_diag by lia. }
  destruct (captured_lookup _ _ _ _ _ Hcap Hn) as (c & Hc & [= H1 H2 H3]).
  exists c. auto.
Qed.

(** X7.  Every request sent to the analysis service carries the subject
    and the key that a recording captured when it was started, and that key
    is not empty. *)
Theorem requests_carry_captured st rq :
  reachable st -> rq ∈ calls st ->
  call_apiKey rq <> ""
  /\ exists i c, cycles st !! i = Some c
                 /\ call_subject rq = c_subject c /\ call_apiKey rq = c_apiKey c.
Proof.
  intros Hr Hin. destruct (reachable_requests_ok _ Hr) as (Hkey & Hrq).
  destruct (Hrq rq Hin) as (i & c & Hi & Hs & Hk).
  split; [rewrite Hk; eapply Hkey; eauto|eauto].
Qed.


Lemma closure_capture_witness :
  recordButton_disabled (mounted (Some "key") 0) = false
  /\ run [ClickRecord; GetUserMediaSettled 0 true; SelectSubject Cat; ClickMode video]
       (mounted (Some "key") 0)
     = Some (after [ClickRecord; GetUserMediaSettled 0 true; SelectSubject Cat;
                    ClickMode video] (mounted (Some "key") 0))
  /\ exists c,
       cycles (after [ClickRecord; GetUserMediaSettled 0 true; SelectSubject Cat;
                      ClickMode video] (mounted (Some "key") 0)) !! 0%nat = Some c
       /\ c_recordMode c = audio /\ c_subject c = Baby /\ c_apiKey c = "key".
Proof.
  assert (H1 : recordButton_disabled (mounted (Some "key") 0) = false) by reflexivity.
  assert (H2 : status (mounted (Some "key") 0) <> recording) by discriminate.
  assert (H3 : run [ClickRecord; GetUserMediaSettled 0 true; SelectSubject Cat;
                    ClickMode video] (mounted (Some "key") 0)
               = Some (after [ClickRecord; GetUserMediaSettled 0 true;
                              SelectSubject Cat; ClickMode video]
                         (mounted (Some "key") 0)))
    by (vm_compute; reflexivity).
  split; [exact H1|]. split; [exact H3|].
  exact (closure_capture _ _ _ H1 H2 H3).
Defined.

Lemma requests_carry_captured_witness :
  reachable st_changed_meanwhile
  /\ subject st_changed_meanwhile = Cat
  /\ apiKey st_changed_meanwhile = "other"
  /\ calls st_changed_meanwhile = [translateAudio "chunk" Dog "key"]
  /\ call_apiKey (translateAudio "chunk" Dog "key") <> "".
Proof.
  assert (H1 : reachable st_changed_meanwhile).
  { repeat (apply reachable_after; [|vm_compute; discriminate]). apply reachable_mounted. }
  assert (H2 : calls st_changed_meanwhile = [translateAudio "chunk" Dog "key"])
    by (vm_compute; reflexivity).
  split; [exact H1|]. split; [vm_compute; reflexivity|].
  split; [vm_compute; reflexivity|]. split; [exact H2|].
  refine (proj1 (requests_carry_captured _ _ H1 _)).
  rewrite H2. apply list_elem_of_singleton. reflexivity.
Defined.

(** ** A whole audio cycle *)

(** The click that starts a recording and the device being granted, in
    audio mode. *)
Lemma audio_started st :
  recordMode st = audio -> apiKey st <> "" ->
  status st = idle \/ status st = result ->
  let n := length (cycles st) in
  exists s,
    run [ClickRecord; GetUserMediaSettled n true] st = Some s
    /\ status s = recording /\ recordMode s = audio /\ apiKey s = apiKey st
    /\ mediaRecorderRef s = Some n /\ audioChunksRef s = []
    /\ calls s = calls st /\ history s = history st /\ error s = None
    /\ exists c, cycles s !! n = Some c
                 /\ c_recordMode c = audio /\ c_recorder c = rec_recording
                 /\ c_subject c = subject st /\ c_apiKey c = apiKey st.
Proof.
  intros Hm Hk Hs n. apply truthy_spec in Hk. subst n.
  assert (E : recordButton_onClick st = startRecording st).
  { unfold recordButton_onClick, recordButton_disabled. rewrite Hk.
    destruct Hs as [-> | ->]; reflexivity. }
  cbn. rewrite E. cbn. rewrite lookup_app_r, Nat.sub_diag by lia. cbn.
  eexists. split; [reflexivity|].
  unfold startRecording_acquired, startRecording, upd_cycle. cbn. rewrite Hm. cbn.
  rewrite !alter_snoc. cbn. split_and!; try reflexivity; try exact Hm.
  eexists. rewrite lookup_app_r, Nat.sub_diag by lia. cbn.
  split_and!; reflexivity.
Qed.

(** The click that stops an audio recording and the task that ends its
    recorder. *)
Lemma audio_stopped s n c data :
  status s = recording -> recordMode s = audio -> apiKey s <> "" ->
  mediaRecorderRef s = Some n -> cycles s !! n = Some c ->
  c_recordMode c = audio -> c_recorder c = rec_recording ->
  exists s',
    run [ClickRecord; RecorderStopTask n data] s = Some s'
    /\ status s' = processing
    /\ calls s'
       = (calls s ++ [translateAudio (Blob (audioChunksRef s ++ [data]))
                        (c_subject c) (c_apiKey c)])%list
    /\ history s' = history s /\ error s' = error s
    /\ exists c', cycles s' !! n = Some c'
                  /\ c_pc c' = AtTranslateAudio /\ c_subject c' = c_subject c.
Proof.
  intros Hs Hm Hk Hr Hn Hcm Hcr. apply truthy_spec in Hk.
  assert (Hlt : (n < length (cycles s))%nat) by (eapply lookup_lt_Some; eauto).
  cbn. unfold recordButton_onClick, recordButton_disabled. rewrite Hs, Hk. cbn.
  unfold stopRecording, upd_cycle. rewrite Hm, Hr. cbn.
  rewrite list_lookup_alter_eq, Hn. cbn. unfold MediaRecorder_stop. rewrite Hcr. cbn.
  rewrite Hcm. eexists. split; [reflexivity|].
  unfold onstop, call, ondataavailable, upd_cycle. cbn.
  split_and!; try reflexivity.
  eexists. rewrite !list_lookup_alter_eq, Hn. cbn. rewrite Hcr.
  split_and!; reflexivity.
Qed.

(** The analysis of an audio recording succeeds. *)
Lemma audio_settled s n c res dateNow newDate :
  cycles s !! n = Some c -> c_pc c = AtTranslateAudio ->
  let r := newRecord dateNow newDate (c_subject c) res in
  exists s',
    step (TranslateAudioSettled n (Fulfilled res) dateNow newDate) s = Some s'
    /\ status s' = result /\ latestResult s' = Some r
    /\ history s' = r :: history s
    /\ calls s' = calls s /\ error s' = error s.
Proof.
  intros Hn Hpc r. cbn. rewrite Hn, Hpc. eexists. split; [reflexivity|].
  unfold onstop_settled, showRecord, upd_cycle.
  match goal with
  | |- context [stopMediaTracks ?x] =>
      destruct (stopMediaTracks_fields x)
        as (_ & _ & Hst & _ & _ & Hh & Hl & He & _ & _ & _ & _ & _ & Hc & _)
  end.
  cbn in *. rewrite Hc, Hh, Hl, Hst, He. split_and!; reflexivity.
Qed.

(** X8.  In audio mode with a key in place, pressing the button, being
    granted the microphone, pressing the button again and the analysis
    succeeding make one request, with the recorded audio, the subject and the
    key, and end with status result, the new record in front of the history
    and as the latest result, no error, and the microphone released. *)
Theorem audio_cycle_completes st data res dateNow newDate :
  reachable st -> recordMode st = audio -> apiKey st <> "" ->
  status st = idle \/ status st = result ->
  let n := length (cycles st) in
  let r := newRecord dateNow newDate (subject st) res in
  exists st',
    run [ClickRecord; GetUserMediaSettled n true; ClickRecord;
         RecorderStopTask n data;
         TranslateAudioSettled n (Fulfilled res) dateNow newDate] st = Some st'
    /\ calls st' = (calls st ++ [translateAudio data (subject st) (apiKey st)])%list
    /\ history st' = r :: history st
    /\ latestResult st' = Some r
    /\ status st' = result
    /\ error st' = None
    /\ device_held st' = false.
Proof.
  intros Hr Hm Hk Hs n r. assert (HI := reachable_Inv _ Hr).
  destruct (audio_started st Hm Hk Hs)
    as (s2 & R1 & Hs2 & Hm2 & Hk2 & Hr2 & Ha2 & Hc2 & Hh2 & He2
        & c & Hn & Hcm & Hcr & Hcs & Hck).
  fold n in R1, Hr2, Hn.
  destruct (audio_stopped s2 n c data Hs2 Hm2 ltac:(congruence) Hr2 Hn Hcm Hcr)
    as (s4 & R2 & Hs4 & Hc4 & Hh4 & He4 & c' & Hn' & Hpc' & Hcs').
  destruct (audio_settled s4 n c' res dateNow newDate Hn' Hpc')
    as (s5 & R3 & Hs5 & Hl5 & Hh5 & Hc5 & He5).
  assert (Hrun : run [ClickRecord; GetUserMediaSettled n true; ClickRecord;
                      RecorderStopTask n data;
                      TranslateAudioSettled n (Fulfilled res) dateNow newDate] st
                 = Some s5).
  { change (run ([ClickRecord; GetUserMediaSettled n true]
                 ++ [ClickRecord; RecorderStopTask n data;
                     TranslateAudioSettled n (Fulfilled res) dateNow newDate]) st
            = Some s5).
    rewrite (run_app _ _ _ _ R1).
    change (run ([ClickRecord; RecorderStopTask n data]
                 ++ [TranslateAudioSettled n (Fulfilled res) dateNow newDate]) s2
            = Some s5).
    rewrite (run_app _ _ _ _ R2). cbn -[step]. now rewrite R3. }
  exists s5. split; [exact Hrun|]. split_and!.
  - rewrite Hc5, Hc4, Hc2, Ha2, Hcs, Hck. reflexivity.
  - rewrite Hh5, Hh4, Hh2. subst r. now rewrite Hcs', Hcs.
  - rewrite Hl5. subst r. now rewrite Hcs', Hcs.
  - exact Hs5.
  - congruence.
  - apply (quiet_released s5 (Inv_run _ _ _ HI Hrun) (or_intror Hs5)).
Qed.

Lemma audio_cycle_completes_witness :
  reachable (mounted (Some "key") 0)
  /\ recordMode (mounted (Some "key") 0) = audio
  /\ apiKey (mounted (Some "key") 0) <> ""
  /\ status (mounted (Some "key") 0) = idle
  /\ exists st',
       run [ClickRecord; GetUserMediaSettled 0 true; ClickRecord;
            RecorderStopTask 0 "chunk";
            TranslateAudioSettled 0 (Fulfilled hungry_audio) 1 2]
         (mounted (Some "key") 0) = Some st'
       /\ calls st' = [translateAudio "chunk" Baby "key"]
       /\ history st' = [newRecord 1 2 Baby hungry_audio]
       /\ status st' = result
       /\ device_held st' = false.
Proof.
  assert (H1 : reachable (mounted (Some "key") 0)) by apply reachable_mounted.
  assert (H2 : recordMode (mounted (Some "key") 0) = audio) by reflexivity.
  assert (H3 : apiKey (mounted (Some "key") 0) <> "") by discriminate.
  assert (H4 : status (mounted (Some "key") 0) = idle) by reflexivity.
  split; [exact H1|]. split; [exact H2|]. split; [exact H3|]. split; [exact H4|].
  destruct (audio_cycle_completes _ "chunk" hungry_audio 1 2 H1 H2 H3 (or_introl H4))
    as (st' & Hrun & Hc & Hh & _ & Hs & _ & Hd).
  exists st'. split; [exact Hrun|]. split; [exact Hc|]. split; [exact Hh|].
  split; [exact Hs|exact Hd].
Defined.

(** ** A recorder nobody stops *)

Lemma stranded_step e st st' i :
  Inv st -> stranded i st -> step e st = Some st' ->
  stranded i st' /\ history st' = history st /\ calls st' = calls st.
Proof.
  intros HI (Hs & c & Hi & Hm & Hpc & Hrec & Hstr) Hstep.
  assert (Hact : c_pc c <> Returned) by (rewrite Hpc; discriminate).
  assert (Hok : cycle_ok c) by apply (proj2 HI _ _ Hi).
  unfold cycle_ok in Hok. rewrite Hpc in Hok. destruct Hok as (_ & Hint & _).
  assert (Hsame : forall j cj, cycles st !! j = Some cj -> c_pc cj <> Returned ->
                    cj = c).
  { intros j cj Hj Hnr.
    destruct (inv_active_last _ _ _ HI Hi Hact) as [E1 _].
    destruct (inv_active_last _ _ _ HI Hj Hnr) as [E2 _].
    assert (j = i) by lia. subst j. congruence. }
  assert (Hkeep : stranded i st).
  { split; [exact Hs|]. exists c. auto. }
  destruct e; step_cases Hstep.
  all: try (unfold_handlers; cbn; split; [|split; reflexivity];
            split; [exact Hs|]; exists c; auto; fail).
  - (* ModalSave *)
    unfold_handlers. destruct (Js.truthy (Js.trim key)); cbn;
      (split; [|split; reflexivity]); (split; [exact Hs|]; exists c; auto).
  - (* ClickRecord *)
    unfold recordButton_onClick, recordButton_disabled. rewrite Hs. auto.
  - (* GetUserMediaSettled *)
    rewrite (Hsame _ _ Hi0) in Hpc0 by (rewrite Hpc0; discriminate). congruence.
  - rewrite (Hsame _ _ Hi0) in Hpc0 by (rewrite Hpc0; discriminate). congruence.
  - (* RecorderStopTask, audio *)
    destruct (decide (i0 = i)) as [->|Hne]; [congruence|].
    assert (Hd : dead c0) by (eapply (inv_others _ _ _ _ _ HI Hi Hact Hi0); congruence).
    destruct Hd as (Hp0 & Hok0). unfold cycle_ok in Hok0. rewrite Hp0 in Hok0.
    destruct Hok0 as (_ & _ & Ha). destruct (Ha Heqr); congruence.
  - (* RecorderStopTask, video *)
    destruct (decide (i0 = i)) as [->|Hne]; [congruence|].
    unfold_handlers. cbn. split; [|split; reflexivity].
    split; [exact Hs|]. exists c. cbn. rewrite list_lookup_alter_ne by congruence. auto.
  - (* IntervalFires *)
    destruct (decide (i0 = i)) as [->|Hne]; [congruence|].
    assert (Hd : dead c0) by (eapply (inv_others _ _ _ _ _ HI Hi Hact Hi0); congruence).
    destruct Hd as (Hp0 & Hok0). unfold cycle_ok in Hok0. rewrite Hp0 in Hok0.
    destruct Hok0 as (_ & Hi0' & _). congruence.
  - rewrite (Hsame _ _ Hi0) in Hpc0 by (rewrite Hpc0; discriminate). congruence.
  - rewrite (Hsame _ _ Hi0) in Hpc0 by (rewrite Hpc0; discriminate). congruence.
  - rewrite (Hsame _ _ Hi0) in Hpc0 by (rewrite Hpc0; discriminate). congruence.
  - rewrite (Hsame _ _ Hi0) in Hpc0 by (rewrite Hpc0; discriminate). congruence.
Qed.

Lemma stranded_run es :
  forall st st' i, Inv st -> stranded i st -> run es st = Some st' ->
    stranded i st' /\ history st' = history st /\ calls st' = calls st.
Proof.
  induction es as [|e es IH]; cbn; intros st st' i HI Hst Hrun.
  - injection Hrun as <-. auto.
  - destruct (step e st) as [s1|] eqn:Hs; [|discriminate].
    destruct (stranded_step _ _ _ _ HI Hst Hs) as (H1 & H2 & H3).
    destruct (IH _ _ _ (Inv_step _ _ _ HI Hs) H1 Hrun) as (H4 & H5 & H6).
    split_and!; congruence.
Qed.

(** X9.  Once the status is processing while an audio recorder is still
    recording, nothing gets the component out of it: whatever the user does
    and however long they wait, the status stays processing, the record button
    stays disabled, the microphone stays in use, no request is sent and no
    record is added. *)
Theorem stranded_forever st i es st' :
  reachable st -> stranded i st -> run es st = Some st' ->
  stranded i st'
  /\ status st' = processing
  /\ recordButton_disabled st' = true
  /\ v_statusText (render st') = "分析中，請稍候..."
  /\ device_held st' = true
  /\ calls st' = calls st
  /\ history st' = history st.
Proof.
  intros Hr Hst Hrun. apply reachable_Inv in Hr.
  destruct (stranded_run _ _ _ _ Hr Hst Hrun) as (H1 & H2 & H3).
  pose proof H1 as (Hs & c & Hi & _ & _ & _ & Hstr).
  split_and!; auto.
  - unfold recordButton_disabled. now rewrite Hs.
  - cbn. now rewrite Hs.
  - unfold device_held. apply existsb_exists. exists c. split; [|exact Hstr].
    apply list_elem_of_In. eapply list_elem_of_lookup_2; eauto.
Qed.

(** X10.  Pressing the record button a second time before the microphone
    has been granted, in audio mode, strands the recording: when the
    microphone is granted the recorder starts, and the status is already
    processing. *)
Theorem stop_before_grant_strands st :
  reachable st -> recordMode st = audio -> apiKey st <> "" ->
  status st = idle \/ status st = result ->
  let n := length (cycles st) in
  exists st',
    run [ClickRecord; ClickRecord; GetUserMediaSettled n true] st = Some st'
    /\ stranded n st'.
Proof.
  intros Hr Hm Hk Hs n. apply truthy_spec in Hk. subst n.
  assert (E : recordButton_onClick st = startRecording st).
  { unfold recordButton_onClick, recordButton_disabled. rewrite Hk.
    destruct Hs as [-> | ->]; reflexivity. }
  cbn. rewrite E.
  assert (E2 : recordButton_onClick (startRecording st)
               = stopRecording (startRecording st)).
  { unfold recordButton_onClick, recordButton_disabled. cbn. now rewrite Hk. }
  rewrite E2.
  assert (Hlen : forall f r l, length (alter (A := Cycle) f r l) = length l)
    by (intros; apply length_alter).
  assert (Hn : exists c,
             cycles (stopRecording (startRecording st)) !! length (cycles st) = Some c
             /\ c_pc c = AtGetUserMedia /\ c_recordMode c = audio).
  { unfold stopRecording, startRecording, upd_cycle. cbn. rewrite Hm.
    destruct (mediaRecorderRef st) as [r|]; cbn.
    - destruct (decide (r = length (cycles st))) as [->|Hne].
      + rewrite alter_snoc. rewrite lookup_app_r, Nat.sub_diag by lia. cbn.
        eexists. split; [reflexivity|]. split; reflexivity.
      + rewrite list_lookup_alter_ne by exact Hne.
        rewrite lookup_app_r, Nat.sub_diag by lia. cbn.
        eexists. split; [reflexivity|]. split; reflexivity.
    - rewrite lookup_app_r, Nat.sub_diag by lia. cbn.
      eexists. split; [reflexivity|]. split; reflexivity. }
  assert (Hst : status (stopRecording (startRecording st)) = processing).
  { unfold stopRecording. cbn. rewrite ?Hm. destruct (mediaRecorderRef st); reflexivity. }
  destruct Hn as (c & Hn & Hpc & Hcm).
  clear E2. remember (stopRecording (startRecording st)) as s eqn:Es. clear Es.
  rewrite Hn, Hpc. eexists. split; [reflexivity|].
  unfold stranded, startRecording_acquired, upd_cycle. rewrite Hcm. cbn.
  split; [exact Hst|].
  eexists. rewrite !list_lookup_alter_eq, Hn. cbn.
  split; [reflexivity|]. split_and!; auto.
Qed.

(** X11.  Switching the mode to video while an audio recording runs and
    then pressing the button strands the recording: in video mode the button
    stops no recorder, and only sets the status to processing. *)
Theorem stop_in_video_mode_strands st i c :
  reachable st -> status st = recording ->
  cycles st !! i = Some c -> c_recordMode c = audio -> c_pc c = AtOnstop ->
  c_recorder c = rec_recording -> c_stream c = true ->
  run [ClickMode video; ClickRecord] st
  = Some (setStatus processing (setRecordMode video st))
  /\ stranded i (setStatus processing (setRecordMode video st)).
Proof.
  intros Hr Hs Hi Hm Hpc Hrec Hstr. apply reachable_Inv in Hr.
  destruct (inv_active_last _ _ _ Hr Hi ltac:(rewrite Hpc; discriminate)) as [_ Hk].
  apply truthy_spec in Hk. split.
  - cbn. unfold recordButton_onClick, recordButton_disabled. cbn. rewrite Hs, Hk.
    reflexivity.
  - split; [reflexivity|]. exists c. auto.
Qed.

Lemma stranded_forever_witness :
  reachable st_stopped_in_video_mode
  /\ stranded 0 st_stopped_in_video_mode
  /\ run [ClickMode audio; ClickRecord; Wait 60000; SelectSubject Cat]
       st_stopped_in_video_mode
     = Some (after [ClickMode audio; ClickRecord; Wait 60000; SelectSubject Cat]
               st_stopped_in_video_mode)
  /\ status (after [ClickMode audio; ClickRecord; Wait 60000; SelectSubject Cat]
               st_stopped_in_video_mode) = processing
  /\ device_held (after [ClickMode audio; ClickRecord; Wait 60000; SelectSubject Cat]
                    st_stopped_in_video_mode) = true.
Proof.
  assert (H1 : reachable st_stopped_in_video_mode).
  { repeat (apply reachable_after; [|vm_compute; discriminate]). apply reachable_mounted. }
  assert (H2 : stranded 0 st_stopped_in_video_mode).
  { split; [reflexivity|]. eexists. vm_compute. split_and!; reflexivity. }
  assert (H3 : run [ClickMode audio; ClickRecord; Wait 60000; SelectSubject Cat]
                 st_stopped_in_video_mode
               = Some (after [ClickMode audio; ClickRecord; Wait 60000; SelectSubject Cat]
                         st_stopped_in_video_mode))
    by (vm_compute; reflexivity).
  split; [exact H1|]. split; [exact H2|]. split; [exact H3|].
  destruct (stranded_forever _ _ _ _ H1 H2 H3) as (_ & Hs & _ & _ & Hd & _).
  split; [exact Hs|exact Hd].
Defined.

Lemma stop_before_grant_witness :
  reachable (mounted (Some "key") 0)
  /\ recordMode (mounted (Some "key") 0) = audio
  /\ apiKey (mounted (Some "key") 0) <> ""
  /\ status (mounted (Some "key") 0) = idle
  /\ exists st',
       run [ClickRecord; ClickRecord; GetUserMediaSettled 0 true]
         (mounted (Some "key") 0) = Some st'
       /\ stranded 0 st'.
Proof.
  assert (H1 : reachable (mounted (Some "key") 0)) by apply reachable_mounted.
  assert (H2 : recordMode (mounted (Some "key") 0) = audio) by reflexivity.
  assert (H3 : apiKey (mounted (Some "key") 0) <> "") by discriminate.
  assert (H4 : status (mounted (Some "key") 0) = idle) by reflexivity.
  split; [exact H1|]. split; [exact H2|]. split; [exact H3|]. split; [exact H4|].
  exact (stop_before_grant_strands _ H1 H2 H3 (or_introl H4)).
Defined.

Lemma stop_in_video_mode_witness :
  reachable st_audio_recording
  /\ status st_audio_recording = recording
  /\ run [ClickMode video; ClickRecord] st_audio_recording
     = Some (setStatus processing (setRecordMode video st_audio_recording))
  /\ stranded 0 (setStatus processing (setRecordMode video st_audio_recording)).
Proof.
  assert (H1 : reachable st_audio_recording).
  { repeat (apply reachable_after; [|vm_compute; discriminate]). apply reachable_mounted. }
  assert (H2 : status st_audio_recording = recording) by reflexivity.
  assert (H3 : exists c, cycles st_audio_recording !! 0%nat = Some c
                         /\ c_recordMode c = audio /\ c_pc c = AtOnstop
                         /\ c_recorder c = rec_recording /\ c_stream c = true).
  { eexists. vm_compute. split_and!; reflexivity. }
  destruct H3 as (c & L & A & B & C & D).
  split; [exact H1|]. split; [exact H2|].
  exact (stop_in_video_mode_strands _ _ _ H1 H2 L A B C D).
Defined.

(** ** The frames of a video cycle *)

Lemma frames_alter (f : Cycle -> Cycle) (j : nat) (l : list Cycle) :
  (forall x, c_frames (f x) = c_frames x) ->
  c_frames <$> alter f j l = c_frames <$> l.
Proof.
  intros Hf. revert j. induction l as [|a l IH]; intros [|j]; cbn;
    try reflexivity.
  - now rewrite Hf.
  - f_equal. apply IH.
Qed.

Lemma frames_at_fmap i st :
  frames_at i st = default [] ((c_frames <$> cycles st) !! i).
Proof. unfold frames_at. rewrite list_lookup_fmap. now destruct (cycles st !! i). Qed.

(** While the status is processing and the budget timer of cycle [i] is
    pending, an event other than the timer leaves the status, the frames
    and the requests as they are. *)
Lemma stopped_early_step e st st' i due :
  Inv st -> status st = processing -> pc_at i (cycles st) (AtTimeout due) ->
  e <> TimeoutFires i -> step e st = Some st' ->
  status st' = processing
  /\ c_frames <$> cycles st' = c_frames <$> cycles st
  /\ calls st' = calls st.
Proof.
  intros HI Hs (c & Hi & Hpc) Hne Hstep.
  assert (Hact : c_pc c <> Returned) by (rewrite Hpc; discriminate).
  assert (Hsame : forall j cj, cycles st !! j = Some cj -> c_pc cj <> Returned ->
                    j = i /\ cj = c).
  { intros j cj Hj Hnr.
    destruct (inv_active_last _ _ _ HI Hi Hact) as [E1 _].
    destruct (inv_active_last _ _ _ HI Hj Hnr) as [E2 _].
    assert (j = i) by lia. subst j. split; congruence. }
  destruct e; step_cases Hstep; with_status HI.
  all: try (destruct (Hsame _ _ Hi0 ltac:(rewrite Hpc0; discriminate)) as [-> ->];
            congruence).
  all: try (unfold_handlers; cbn; split_and!; (reflexivity || exact Hs); fail).
  - unfold_handlers. destruct (Js.truthy (Js.trim key)); cbn;
      split_and!; (reflexivity || exact Hs).
  - unfold recordButton_onClick, recordButton_disabled. rewrite Hs. auto.
  - unfold_handlers. cbn. split_and!; [exact Hs| |reflexivity].
    now apply frames_alter.
  - unfold frameInterval_callback, videoRef_current, upd_cycle. rewrite Hs.
    destruct (recordMode st); cbn; (split_and!; [exact Hs| |reflexivity]);
      now apply frames_alter.
Qed.

Lemma stopped_early_run es :
  forall st st' i due,
    Inv st -> status st = processing -> pc_at i (cycles st) (AtTimeout due) ->
    Forall (fun e => e <> TimeoutFires i) es -> run es st = Some st' ->
    status st' = processing
    /\ pc_at i (cycles st') (AtTimeout due)
    /\ c_frames <$> cycles st' = c_frames <$> cycles st
    /\ calls st' = calls st.
Proof.
  induction es as [|e es IH]; cbn; intros st st' i due HI Hs Hat Hes Hrun.
  - injection Hrun as <-. auto.
  - destruct (step e st) as [s1|] eqn:Hstep; [|discriminate].
    apply Forall_cons in Hes as [Hne Hes].
    destruct (stopped_early_step _ _ _ _ _ HI Hs Hat Hne Hstep) as (H1 & H2 & H3).
    pose proof (timeout_stays _ _ _ _ _ HI Hstep Hat Hne) as Hat1.
    destruct (IH _ _ _ _ (Inv_step _ _ _ HI Hstep) H1 Hat1 Hes Hrun)
      as (H4 & H5 & H6 & H7).
    split_and!; congruence.
Qed.

(** X12.  Pressing stop during a video recording does not end it: the
    status becomes processing, and from then until the budget timer fires,
    whatever else happens, no frame is added and no request is sent.  The
    request sent when the timer fires carries the frames taken before the
    stop, with the subject and key of the cycle. *)
Theorem early_stop_freezes_frames st i c due es st1 st2 :
  reachable st -> status st = processing ->
  cycles st !! i = Some c -> c_pc c = AtTimeout due ->
  Forall (fun e => e <> TimeoutFires i) es ->
  run es st = Some st1 -> step (TimeoutFires i) st1 = Some st2 ->
  status st1 = processing
  /\ frames_at i st1 = c_frames c
  /\ calls st1 = calls st
  /\ calls st2
     = (calls st ++ [analyzeVideoFrames (c_frames c) (c_subject c) (c_apiKey c)])%list.
Proof.
  intros Hr Hs Hi Hpc Hes Hrun Hstep. apply reachable_Inv in Hr.
  destruct (stopped_early_run es st st1 i due Hr Hs ltac:(exists c; auto) Hes Hrun)
    as (H1 & (c1 & Hi1 & Hpc1) & H3 & H4).
  destruct (run_captured _ _ _ Hrun) as (new & Hcap).
  destruct (captured_lookup _ _ _ _ _ Hcap Hi) as (c1' & Hi1' & [= _ Hsub Hkey]).
  rewrite Hi1 in Hi1'. injection Hi1' as <-.
  assert (Hf : frames_at i st1 = c_frames c).
  { rewrite frames_at_fmap, H3, list_lookup_fmap, Hi. reflexivity. }
  split_and!; auto.
  cbn in Hstep. rewrite Hi1, Hpc1 in Hstep.
  destruct (due <=? now st1); [|discriminate]. injection Hstep as <-.
  unfold timeout_callback, call, upd_cycle. cbn.
  rewrite stopMediaTracks_calls.
  assert (Hf1 : c_frames c1 = c_frames c).
  { unfold frames_at in Hf. now rewrite Hi1 in Hf. }
  rewrite Hf1, Hsub, Hkey.
  destruct (mediaRecorderRef st1); cbn; now rewrite H4.
Qed.

Lemma early_stop_freezes_frames_witness :
  reachable st_video_stopped_early
  /\ status st_video_stopped_early = processing
  /\ run (ticks 0 (drop 1 nine_frames) ++ [Wait 500])%list st_video_stopped_early
     = Some st_video_stopped_due
  /\ frames_at 0 st_video_stopped_due = ["f1"]
  /\ step (TimeoutFires 0) st_video_stopped_due
     = Some (after [TimeoutFires 0] st_video_stopped_due)
  /\ calls (after [TimeoutFires 0] st_video_stopped_due)
     = [analyzeVideoFrames ["f1"] Baby "key"].
Proof.
  assert (H1 : reachable st_video_stopped_early).
  { repeat (apply reachable_after; [|vm_compute; discriminate]). apply reachable_mounted. }
  assert (H2 : status st_video_stopped_early = processing) by reflexivity.
  assert (H3 : exists c, cycles st_video_stopped_early !! 0%nat = Some c
                         /\ c_pc c = AtTimeout 5000 /\ c_frames c = ["f1"]
                         /\ c_subject c = Baby /\ c_apiKey c = "key"
                         /\ calls st_video_stopped_early = []).
  { eexists. vm_compute. split_and!; reflexivity. }
  destruct H3 as (c & L & Hpc & Hf & Hsub & Hkey & Hc).
  assert (H4 : Forall (fun e => e <> TimeoutFires 0)
                 (ticks 0 (drop 1 nine_frames) ++ [Wait 500])%list)
    by (cbn; repeat constructor; discriminate).
  assert (H5 : run (ticks 0 (drop 1 nine_frames) ++ [Wait 500])%list
                 st_video_stopped_early = Some st_video_stopped_due)
    by (vm_compute; reflexivity).
  assert (H6 : step (TimeoutFires 0) st_video_stopped_due
               = Some (after [TimeoutFires 0] st_video_stopped_due))
    by (vm_compute; reflexivity).
  split; [exact H1|]. split; [exact H2|]. split; [exact H5|].
  destruct (early_stop_freezes_frames _ _ _ _ _ _ _ H1 H2 L Hpc H4 H5 H6)
    as (_ & Hfr & _ & Hcalls).
  rewrite Hf in Hfr. rewrite Hf, Hsub, Hkey, Hc in Hcalls.
  split; [exact Hfr|]. split; [exact H6|exact Hcalls].
Defined.

Lemma interval_at_timeout st i c d :
  Inv st -> cycles st !! i = Some c -> c_interval c = Some d ->
  exists due, c_pc c = AtTimeout due.
Proof.
  intros HI Hi Hd. destruct (proj2 HI _ _ Hi) as (Hok & _). unfold cycle_ok in Hok.
  destruct (c_pc c); try (exfalso; intuition congruence). eauto.
Qed.

Lemma cfo_alter t (f : Cycle -> Cycle) (i : nat) (l : list Cycle) :
  (forall c, l !! i = Some c -> frames_ok t c -> frames_ok t (f c)) ->
  cycles_frames_ok t l -> cycles_frames_ok t (alter f i l).
Proof.
  intros Hf Hl j c' Hj. inv_alter Hj; eauto.
Qed.

Lemma alter_alter {A} (f g : A -> A) (i : nat) (l : list A) :
  alter f i (alter g i l) = alter (fun x => f (g x)) i l.
Proof.
  revert i. induction l as [|a l IH]; intros [|i]; cbn; try reflexivity.
  f_equal. apply IH.
Qed.

Lemma cfo_snoc t (l : list Cycle) c :
  frames_ok t c -> cycles_frames_ok t l -> cycles_frames_ok t (l ++ [c])%list.
Proof.
  intros Hc Hl j c' Hj. apply lookup_app_Some in Hj as [Hj|[_ Hj]]; [eauto|].
  destruct (j - length l)%nat; cbn in Hj; [|rewrite ?lookup_nil in Hj; discriminate].
  now injection Hj as <-.
Qed.

Lemma qfo_snoc (q : list ServiceCall) rq :
  (forall frames s k, rq = analyzeVideoFrames frames s k -> (length frames <= 10)%nat) ->
  calls_frames_ok q -> calls_frames_ok (q ++ [rq])%list.
Proof.
  intros Hrq Hq frames s k Hin. apply elem_of_app in Hin as [Hin|Hin]; [eauto|].
  apply list_elem_of_singleton in Hin. eauto.
Qed.

(** A change of a cycle that keeps its frames, and keeps its interval or
    cancels it, and keeps its place or leaves the budget timer behind. *)
Lemma frames_ok_quiet t c c' :
  c_frames c' = c_frames c ->
  c_interval c' = c_interval c \/ c_interval c' = None ->
  c_pc c' = c_pc c \/ (forall due, c_pc c' <> AtTimeout due) ->
  frames_ok t c -> frames_ok t c'.
Proof.
  unfold frames_ok. intros -> Hint Hpc [Hlen H]. split; [exact Hlen|].
  destruct Hpc as [-> | Hpc].
  - destruct (c_pc c); auto. destruct H as [Hle H]. split; [exact Hle|].
    destruct Hint as [-> | ->]; auto.
  - destruct (c_pc c'); auto. now destruct (Hpc due).
Qed.

Ltac quiet_tac :=
  intros;
  match goal with
  | H : frames_ok _ ?c |- frames_ok _ _ =>
      apply (frames_ok_quiet _ c); [| | |exact H];
      unfold MediaRecorder_stop; try destruct (c_recorder c); cbn;
      first [ reflexivity | left; reflexivity
            | right; first [reflexivity | intros ?; discriminate] ]
  end.

Lemma frames_inv_step e st st' :
  Inv st -> frames_inv st -> step e st = Some st' -> frames_inv st'.
Proof.
  intros HI (Hc & Hq) Hstep.
  destruct e; step_cases Hstep.
  all: try (split; [exact Hc|exact Hq]).
  all: unfold_handlers; case_all; unfold frames_inv; cbn;
    rewrite ?stopMediaTracks_calls.
  all: try (split; [exact Hc|exact Hq]).
  all: rewrite ?alter_alter.
  all: split;
    [ repeat (apply cfo_alter; [try quiet_tac|]); try exact Hc
    | repeat (apply qfo_snoc; [intros; try discriminate|]); try exact Hq ].
  all: try (apply cfo_snoc; [split; cbn; [lia|exact I]|exact Hc]).
  all: try (match goal with
            | H : analyzeVideoFrames _ _ _ = analyzeVideoFrames _ _ _ |- _ =>
                injection H as <- _ _
            end;
            match goal with
            | Hi : cycles _ !! _ = Some ?c |- (length (c_frames ?c) <= 10)%nat =>
                exact (proj1 (Hc _ _ Hi))
            end).
  - (* the device is granted, video mode *)
    intros c0 _ _. unfold frames_ok. cbn. split; [lia|]. split; [lia|].
    exists 0. lia.
  - (* the interval fires and takes a frame *)
    intros c0 Hi0 Hfo. rewrite Hi in Hi0. injection Hi0 as <-.
    destruct (interval_at_timeout _ _ _ _ HI Hi Hint) as (due & Hpc).
    unfold frames_ok in *. cbn. rewrite Hpc, Hint in *.
    destruct Hfo as (Hlen & Hle & k & Hz & Hk).
    apply Z.leb_le in Heqb. rewrite length_app. cbn.
    split; [lia|]. split; [exact Hle|]. exists (k + 1). lia.
  - (* the interval fires, no frame *)
    intros c0 Hi0 Hfo. rewrite Hi in Hi0. injection Hi0 as <-.
    destruct (interval_at_timeout _ _ _ _ HI Hi Hint) as (due & Hpc).
    unfold frames_ok in *. cbn. rewrite Hpc, Hint in *.
    destruct Hfo as (Hlen & Hle & k & Hz & Hk).
    split; [lia|]. split; [exact Hle|]. exists (k + 1). lia.
  - intros c0 Hi0 Hfo. rewrite Hi in Hi0. injection Hi0 as <-.
    destruct (interval_at_timeout _ _ _ _ HI Hi Hint) as (due & Hpc).
    unfold frames_ok in *. cbn. rewrite Hpc, Hint in *.
    destruct Hfo as (Hlen & Hle & k & Hz & Hk).
    split; [lia|]. split; [exact Hle|]. exists (k + 1). lia.
  - (* time passes *)
    apply andb_true_iff in Heqb as [_ Ht].
    intros j c Hj. pose proof (Hc _ _ Hj) as Hfo.
    pose proof (forallb_lookup _ _ _ _ Ht Hj) as Hta.
    unfold timers_after in Hta. apply andb_true_iff in Hta as [_ Hta].
    unfold frames_ok in *. destruct Hfo as [Hlen Hfo]. split; [exact Hlen|].
    destruct (c_pc c); auto. apply Z.leb_le in Hta. split; [exact Hta|apply Hfo].
Qed.

Lemma reachable_frames_inv st : reachable st -> frames_inv st.
Proof.
  intros (stored & t0 & es & Hrun).
  assert (HI := Inv_mounted stored t0).
  assert (H0 : frames_inv (mounted stored t0)).
  { assert (Ec : cycles (mounted stored t0) = [])
      by (unfold mounted, useEffect_mount; cbn;
          destruct stored as [k|]; [destruct (Js.truthy k)|]; reflexivity).
    assert (Eq : calls (mounted stored t0) = [])
      by (unfold mounted, useEffect_mount; cbn;
          destruct stored as [k|]; [destruct (Js.truthy k)|]; reflexivity).
    split.
    - intros i c. rewrite Ec, lookup_nil. discriminate.
    - intros frames s k. rewrite Eq. intros Hin. now apply elem_of_nil in Hin. }
  revert Hrun HI H0. generalize (mounted stored t0). induction es as [|e es IH]; cbn.
  - now intros s [= ->].
  - intros s Hrun HI H0. destruct (step e s) as [s'|] eqn:Hs; [|discriminate].
    apply (IH s' Hrun); [eapply Inv_step | eapply frames_inv_step]; eauto.
Qed.

(** X13.  Whatever the user does, a video cycle never holds more than ten
    frames, and no request for a video analysis ever carries more than
    ten. *)
Theorem at_most_ten_frames st :
  reachable st ->
  (forall i, (length (frames_at i st) <= 10)%nat)
  /\ forall frames subj key,
       analyzeVideoFrames frames subj key ∈ calls st -> (length frames <= 10)%nat.
Proof.
  intros Hr. destruct (reachable_frames_inv _ Hr) as (Hc & Hq). split; [|exact Hq].
  intros i. unfold frames_at. destruct (cycles st !! i) as [c|] eqn:Hi; [|cbn; lia].
  exact (proj1 (Hc _ _ Hi)).
Qed.

Lemma at_most_ten_frames_witness :
  reachable st_video_expired
  /\ calls st_video_expired = [analyzeVideoFrames nine_frames Baby "key"]
  /\ (length nine_frames <= 10)%nat.
Proof.
  assert (H1 : reachable st_video_expired).
  { repeat (apply reachable_after; [|vm_compute; discriminate]). apply reachable_mounted. }
  assert (H2 : calls st_video_expired = [analyzeVideoFrames nine_frames Baby "key"])
    by (vm_compute; reflexivity).
  split; [exact H1|]. split; [exact H2|].
  refine (proj2 (at_most_ten_frames _ H1) nine_frames Baby "key" _).
  rewrite H2. apply list_elem_of_singleton. reflexivity.
Defined.

(** ** The rest of a video cycle *)

(** X14.  After the budget timer has fired, the data of the recorder
    arriving, the video analysis succeeding and the audio analysis
    succeeding make one more request, with the recorded audio and the subject
    and key of the cycle, and end with status result and the merged record in
    front of the history and as the latest result, the device free. *)
Theorem video_analysis_completes st i c data v a dateNow newDate :
  reachable st ->
  cycles st !! i = Some c -> c_pc c = AtAnalyzeVideoFrames ->
  c_recorder c = rec_stopping ->
  let r := newRecord dateNow newDate (c_subject c) (combinedResult v a) in
  exists st',
    run [RecorderStopTask i data; AnalyzeVideoFramesSettled i (Fulfilled v);
         TranslateAudioSettled i (Fulfilled a) dateNow newDate] st = Some st'
    /\ calls st'
       = (calls st ++ [translateAudio (Blob (audioChunksRef st ++ [data]))
                         (c_subject c) (c_apiKey c)])%list
    /\ history st' = r :: history st
    /\ latestResult st' = Some r
    /\ status st' = result
    /\ error st' = error st
    /\ device_held st' = false.
Proof.
  intros Hr Hi Hpc Hrec r. assert (HI := reachable_Inv _ Hr).
  assert (Hm : c_recordMode c = video).
  { destruct (proj2 HI _ _ Hi) as (Hok & _). unfold cycle_ok in Hok.
    rewrite Hpc in Hok. tauto. }
  cut (exists st',
    run [RecorderStopTask i data; AnalyzeVideoFramesSettled i (Fulfilled v);
         TranslateAudioSettled i (Fulfilled a) dateNow newDate] st = Some st'
    /\ calls st'
       = (calls st ++ [translateAudio (Blob (audioChunksRef st ++ [data]))
                         (c_subject c) (c_apiKey c)])%list
    /\ history st' = r :: history st
    /\ latestResult st' = Some r
    /\ status st' = result
    /\ error st' = error st).
  { intros (st' & Hrun & H1 & H2 & H3 & H4 & H5). exists st'. split_and!; auto.
    apply (quiet_released st' (Inv_run _ _ _ HI Hrun) (or_intror H4)). }
  cbn. rewrite Hi, Hrec, Hm. unfold ondataavailable, skip, upd_cycle. cbn.
  rewrite list_lookup_alter_eq, Hi. cbn. rewrite Hpc.
  unfold timeout_video_settled, call, upd_cycle. cbn.
  rewrite !list_lookup_alter_eq, Hi. cbn.
  eexists. split; [reflexivity|].
  unfold timeout_audio_settled, showRecord, upd_cycle. cbn.
  split_and!; reflexivity.
Qed.

Lemma video_analysis_completes_witness :
  reachable st_video_expired
  /\ exists st',
       run [RecorderStopTask 0 "chunk"; AnalyzeVideoFramesSettled 0 (Fulfilled calm_video);
            TranslateAudioSettled 0 (Fulfilled hungry_audio) 1700000005000 1700000005000]
         st_video_expired = Some st'
       /\ calls st'
          = [analyzeVideoFrames nine_frames Baby "key"; translateAudio "chunk" Baby "key"]
       /\ status st' = result
       /\ device_held st' = false.
Proof.
  assert (H1 : reachable st_video_expired).
  { repeat (apply reachable_after; [|vm_compute; discriminate]). apply reachable_mounted. }
  assert (H2 : exists c, cycles st_video_expired !! 0%nat = Some c
                         /\ c_pc c = AtAnalyzeVideoFrames /\ c_recorder c = rec_stopping
                         /\ c_subject c = Baby /\ c_apiKey c = "key"
                         /\ calls st_video_expired
                            = [analyzeVideoFrames nine_frames Baby "key"]
                         /\ audioChunksRef st_video_expired = []).
  { eexists. vm_compute. split_and!; reflexivity. }
  destruct H2 as (c & L & Hpc & Hrec & Hsub & Hkey & Hc & Ha).
  split; [exact H1|].
  destruct (video_analysis_completes _ _ _ "chunk" calm_video hungry_audio
              1700000005000 1700000005000 H1 L Hpc Hrec)
    as (st' & Hrun & Hcalls & _ & _ & Hs & _ & Hd).
  exists st'. split; [exact Hrun|].
  rewrite Hc, Ha, Hsub, Hkey in Hcalls.
  split; [exact Hcalls|]. split; [exact Hs|exact Hd].
Defined.

(** ** Busy and pending *)

Lemma pending_alter_same (f : Cycle -> Cycle) (j : nat) (l : list Cycle) :
  (forall x, c_pc (f x) = c_pc x) -> pending l -> pending (alter f j l).
Proof.
  intros Hf (i & p & Hat & Hp). exists i, p. split; [|exact Hp].
  now apply pc_at_alter_same.
Qed.

Lemma pending_snoc (l : list Cycle) c :
  c_pc c <> Returned -> pending (l ++ [c])%list.
Proof.
  intros Hp. exists (length l), (c_pc c). split; [|exact Hp].
  exists c. now rewrite lookup_app_r, Nat.sub_diag by lia.
Qed.

Lemma pending_alter_any (f : Cycle -> Cycle) (i : nat) (l : list Cycle) :
  (i < length l)%nat -> (forall x, c_pc (f x) <> Returned) -> pending (alter f i l).
Proof.
  intros Hlt Hf. destruct (lookup_lt_is_Some_2 l i Hlt) as [c Hi].
  exists i, (c_pc (f c)). split; [|apply Hf].
  exists (f c). now rewrite list_lookup_alter_eq, Hi.
Qed.

Lemma busy_step e st st' :
  Inv st -> (busy (status st) -> pending (cycles st)) ->
  step e st = Some st' -> busy (status st') -> pending (cycles st').
Proof.
  intros HI IH Hstep. unfold busy in *.
  destruct e; step_cases Hstep; with_status HI.
  all: try exact IH.
  all: unfold_handlers; case_all; rewrite ?alter_alter.
  all: try exact IH.
  all: try (intros [Hb|Hb]; discriminate Hb).
  all: intros Hb.
  all: try (assert (Hp : pending (cycles st))
             by (apply IH;
                 repeat match goal with
                        | H : status _ = _ |- _ => rewrite H
                        | H : _ \/ _ |- _ => destruct H
                        end; auto)).
  all: try (apply pending_snoc; discriminate).
  all: try (apply pending_alter_any;
            [rewrite ?length_alter; eapply lookup_lt_Some; eassumption
            |intros ?; cbn; discriminate]).
  all: try (repeat (apply pending_alter_same;
                    [intros ?; first [reflexivity | apply pc_stop]|]);
            exact Hp).
Qed.

Lemma reachable_busy st : reachable st -> busy (status st) -> pending (cycles st).
Proof.
  intros (stored & t0 & es & Hrun).
  assert (HI := Inv_mounted stored t0).
  assert (H0 : busy (status (mounted stored t0)) -> pending (cycles (mounted stored t0))).
  { unfold busy, mounted, useEffect_mount. cbn.
    destruct stored as [k|]; [destruct (Js.truthy k)|]; cbn; intros [H|H];
      discriminate. }
  revert Hrun HI H0. generalize (mounted stored t0). induction es as [|e es IH]; cbn.
  - now intros s [= ->].
  - intros s Hrun HI H0. destruct (step e s) as [s'|] eqn:Hs; [|discriminate].
    apply (IH s' Hrun); [eapply Inv_step | eapply busy_step]; eauto.
Qed.

(** X15.  The status is recording or processing exactly when a recording
    cycle has not returned; so idle and result mean that nothing is pending,
    and a busy status is never left over by a cycle that has ended.  While
    the status is recording no request is in flight. *)
Theorem busy_iff_pending st :
  reachable st ->
  (busy (status st) <-> pending (cycles st))
  /\ (status st = recording -> call_in_flight st = false).
Proof.
  intros Hr. assert (HI := reachable_Inv _ Hr). split; [split|].
  - now apply reachable_busy.
  - intros (i & p & (c & Hi & Hpc) & Hp).
    pose proof (status_of_active _ _ _ HI Hi) as Hok. unfold status_ok in Hok.
    rewrite Hpc in Hok. unfold busy. destruct p; auto; contradiction.
  - intros Hs. apply existsb_false_lookup. intros j c Hj.
    pose proof (status_of_active _ _ _ HI Hj) as Hok. unfold status_ok in Hok.
    destruct (c_pc c); try reflexivity; congruence.
Qed.

Lemma busy_iff_pending_witness :
  reachable st_dog_result
  /\ status st_dog_result = result
  /\ ~ pending (cycles st_dog_result).
Proof.
  assert (H1 : reachable st_dog_result).
  { repeat (apply reachable_after; [|vm_compute; discriminate]). apply reachable_mounted. }
  assert (H2 : status st_dog_result = result) by reflexivity.
  split; [exact H1|]. split; [exact H2|].
  intros Hp. apply (proj1 (busy_iff_pending _ H1)) in Hp.
  rewrite H2 in Hp. destruct Hp; discriminate.
Defined.

(** ** Without a key *)

Lemma no_key_step e st st' :
  Inv st -> apiKey st = "" -> (forall k, e <> ModalSave k) ->
  step e st = Some st' ->
  apiKey st' = "" /\ calls st' = calls st /\ history st' = history st.
Proof.
  intros HI Hk Hne Hstep. destruct (proj1 HI Hk) as [Hopen Hidle].
  assert (Hdead : forall j c, cycles st !! j = Some c -> dead c).
  { intros j c. apply inv_quiet; auto. }
  destruct e; step_cases Hstep; with_status HI.
  all: try (destruct (Hdead _ _ Hi) as [Hret _]; congruence).
  all: try (split_and!; (reflexivity || exact Hk); fail).
  - now destruct (Hne key).
  - unfold recordButton_onClick, recordButton_disabled. rewrite Hidle, Hk. cbn.
    split_and!; auto.
  - destruct (Hdead _ _ Hi) as [Hret Hcok]. unfold cycle_ok in Hcok.
    rewrite Hret in Hcok. destruct Hcok as (_ & Hnone & _). congruence.
Qed.

(** X16.  While there is no key, nothing but saving one in the modal gets
    the component going: whatever else happens, the key stays absent, the
    status idle, no request is sent and no record added; the modal stays
    open without a way to cancel, and the hint about the key stays on the
    screen. *)
Theorem no_key_no_request es :
  forall st st',
    reachable st -> apiKey st = "" ->
    Forall (fun e => forall k, e <> ModalSave k) es ->
    run es st = Some st' ->
    apiKey st' = "" /\ status st' = idle
    /\ calls st' = calls st /\ history st' = history st
    /\ v_modal (render st') = Some false
    /\ v_keyHint (render st') = true
    /\ v_button_disabled (render st') = true.
Proof.
  induction es as [|e es IH]; cbn; intros st st' Hr Hk Hes Hrun.
  - injection Hrun as <-. destruct (proj1 (reachable_Inv _ Hr) Hk) as [Hopen Hidle].
    unfold recordButton_disabled. rewrite Hopen, Hidle, Hk. cbn. split_and!; reflexivity.
  - destruct (step e st) as [s1|] eqn:Hstep; [|discriminate].
    apply Forall_cons in Hes as [Hne Hes].
    destruct (no_key_step _ _ _ (reachable_Inv _ Hr) Hk Hne Hstep) as (H1 & H2 & H3).
    assert (Hr1 : reachable s1).
    { destruct Hr as (stored & t0 & es0 & H0). exists stored, t0, (es0 ++ [e])%list.
      rewrite (run_app _ _ _ _ H0). cbn. now rewrite Hstep. }
    destruct (IH _ _ Hr1 H1 Hes Hrun) as (H4 & H5 & H6 & H7 & H8).
    split_and!; try tauto; congruence.
Qed.

Lemma no_key_no_request_witness :
  reachable st_no_key
  /\ apiKey st_no_key = ""
  /\ run [ClickRecord; ClickMode video; ClickSettings; SelectSubject Dog; ClickRecord;
          Wait 1000] st_no_key
     = Some (after [ClickRecord; ClickMode video; ClickSettings; SelectSubject Dog;
                    ClickRecord; Wait 1000] st_no_key)
  /\ status (after [ClickRecord; ClickMode video; ClickSettings; SelectSubject Dog;
                    ClickRecord; Wait 1000] st_no_key) = idle
  /\ calls (after [ClickRecord; ClickMode video; ClickSettings; SelectSubject Dog;
                   ClickRecord; Wait 1000] st_no_key) = [].
Proof.
  assert (H1 : reachable st_no_key) by apply reachable_mounted.
  assert (H2 : apiKey st_no_key = "") by reflexivity.
  assert (H3 : Forall (fun e => forall k, e <> ModalSave k)
                 [ClickRecord; ClickMode video; ClickSettings; SelectSubject Dog;
                  ClickRecord; Wait 1000])
    by (repeat constructor; discriminate).
  assert (H4 : run [ClickRecord; ClickMode video; ClickSettings; SelectSubject Dog;
                    ClickRecord; Wait 1000] st_no_key
               = Some (after [ClickRecord; ClickMode video; ClickSettings;
                              SelectSubject Dog; ClickRecord; Wait 1000] st_no_key))
    by (vm_compute; reflexivity).
  split; [exact H1|]. split; [exact H2|]. split; [exact H4|].
  destruct (no_key_no_request _ _ _ H1 H2 H3 H4) as (_ & Hs & Hc & _).
  split; [exact Hs|exact Hc].
Defined.

(** ** The key the modal saves *)














(** ** Stop pressed before the camera is granted *)

(** X18.  In video mode, pressing the button a second time before the
    camera has been granted does not call the recording off: once granted
    it runs for its five seconds with the status processing, no frame is
    ever taken, and the request sent when the budget timer fires carries no
    frame at all. *)
Theorem video_stop_before_grant st es st1 st2 :
  reachable st -> recordMode st = video -> apiKey st <> "" ->
  status st = idle \/ status st = result ->
  let n := length (cycles st) in
  Forall (fun e => e <> TimeoutFires n) es ->
  run ([ClickRecord; ClickRecord; GetUserMediaSettled n true] ++ es) st = Some st1 ->
  step (TimeoutFires n) st1 = Some st2 ->
  status st1 = processing
  /\ frames_at n st1 = []
  /\ calls st1 = calls st
  /\ calls st2 = (calls st ++ [analyzeVideoFrames [] (subject st) (apiKey st)])%list.
Proof.
  intros Hr Hm Hk Hs n Hes Hrun Hstep. assert (HI := reachable_Inv _ Hr).
  apply truthy_spec in Hk.
  assert (E : recordButton_onClick st = startRecording st).
  { unfold recordButton_onClick, recordButton_disabled. rewrite Hk.
    destruct Hs as [-> | ->]; reflexivity. }
  assert (E2 : recordButton_onClick (startRecording st)
               = setStatus processing (startRecording st)).
  { unfold recordButton_onClick, recordButton_disabled, stopRecording. cbn.
    now rewrite Hk, Hm. }
  set (c0 := {| c_recordMode := recordMode st; c_subject := subject st;
                c_apiKey := apiKey st; c_pc := AtGetUserMedia; c_stream := false;
                c_recorder := no_recorder; c_frames := []; c_interval := None |}).
  set (s3 := startRecording_acquired n c0 (setStatus processing (startRecording st))).
  assert (R3 : run [ClickRecord; ClickRecord; GetUserMediaSettled n true] st = Some s3).
  { cbn. rewrite E, E2. cbn. subst n. rewrite lookup_app_r, Nat.sub_diag by lia.
    reflexivity. }
  rewrite (run_app _ _ _ _ R3) in Hrun.
  assert (I3 : Inv s3) by exact (Inv_run _ _ _ HI R3).
  assert (F3 : exists c, cycles s3 !! n = Some c
                         /\ c_pc c = AtTimeout (now st + 5000) /\ c_frames c = []
                         /\ c_subject c = subject st /\ c_apiKey c = apiKey st).
  { subst s3 n. unfold startRecording_acquired, startRecording, upd_cycle. cbn.
    rewrite Hm. cbn. rewrite !alter_snoc. cbn.
    rewrite lookup_app_r, Nat.sub_diag by lia. cbn.
    eexists. split; [reflexivity|]. split_and!; reflexivity. }
  destruct F3 as (c & Hn & Hpc & Hf & Hsub & Hkey).
  assert (S3 : status s3 = processing).
  { subst s3. unfold startRecording_acquired, upd_cycle. cbn. now rewrite Hm. }
  assert (C3 : calls s3 = calls st).
  { subst s3. unfold startRecording_acquired, upd_cycle. cbn. now rewrite Hm. }
  destruct (stopped_early_run es s3 st1 n _ I3 S3 ltac:(exists c; eauto) Hes Hrun)
    as (H1 & (c1 & Hi1 & Hpc1) & H3 & H4).
  destruct (run_captured _ _ _ Hrun) as (new & Hcap).
  destruct (captured_lookup _ _ _ _ _ Hcap Hn) as (c1' & Hi1' & [= _ Hsub1 Hkey1]).
  rewrite Hi1 in Hi1'. injection Hi1' as <-.
  assert (Hf1 : c_frames c1 = []).
  { assert (H : (c_frames <$> cycles st1) !! n = Some (c_frames c1))
      by now rewrite list_lookup_fmap, Hi1.
    rewrite H3, list_lookup_fmap, Hn in H. cbn in H. congruence. }
  split_and!.
  - exact H1.
  - unfold frames_at. now rewrite Hi1.
  - congruence.
  - cbn in Hstep. rewrite Hi1, Hpc1 in Hstep.
    destruct (now st + 5000 <=? now st1); [|discriminate]. injection Hstep as <-.
    unfold timeout_callback, call, upd_cycle. cbn. rewrite stopMediaTracks_calls.
    rewrite Hf1, Hsub1, Hkey1, Hsub, Hkey.
    destruct (mediaRecorderRef st1); cbn; now rewrite H4, C3.
Qed.

Lemma video_stop_before_grant_witness :
  reachable st_video_mode
  /\ recordMode st_video_mode = video
  /\ apiKey st_video_mode <> ""
  /\ status st_video_mode = idle
  /\ run ([ClickRecord; ClickRecord; GetUserMediaSettled 0 true]
          ++ ticks 0 nine_frames ++ [Wait 500])%list st_video_mode
     = Some st_video_unseen_due
  /\ step (TimeoutFires 0) st_video_unseen_due
     = Some (after [TimeoutFires 0] st_video_unseen_due)
  /\ calls (after [TimeoutFires 0] st_video_unseen_due)
     = [analyzeVideoFrames [] Baby "key"].
Proof.
  assert (H1 : reachable st_video_mode).
  { repeat (apply reachable_after; [|vm_compute; discriminate]). apply reachable_mounted. }
  assert (H2 : recordMode st_video_mode = video) by reflexivity.
  assert (H3 : apiKey st_video_mode <> "") by discriminate.
  assert (H4 : status st_video_mode = idle) by reflexivity.
  assert (H5 : Forall (fun e => e <> TimeoutFires (length (cycles st_video_mode)))
                 (ticks 0 nine_frames ++ [Wait 500])%list)
    by (cbn; repeat constructor; discriminate).
  assert (H6 : run ([ClickRecord; ClickRecord;
                     GetUserMediaSettled (length (cycles st_video_mode)) true]
                    ++ ticks 0 nine_frames ++ [Wait 500])%list st_video_mode
               = Some st_video_unseen_due)
    by (vm_compute; reflexivity).
  assert (H7 : step (TimeoutFires (length (cycles st_video_mode))) st_video_unseen_due
               = Some (after [TimeoutFires 0] st_video_unseen_due))
    by (vm_compute; reflexivity).
  split; [exact H1|]. split; [exact H2|]. split; [exact H3|]. split; [exact H4|].
  split; [exact H6|]. split; [exact H7|].
  exact (proj2 (proj2 (proj2
           (video_stop_before_grant _ _ _ _ H1 H2 H3 (or_introl H4) H5 H6 H7)))).
Defined.
